(** * mylib: a thread-agnostic SPMD coordination layer (mylib.h, mylib.c)

    A shallow embedding of the library: C [int] arithmetic, the work
    partition of the two kernels, the heap objects ([mylib_ThreadFactory],
    [mylib_ThreadControl], scratch buffers), the library routines written in
    a small thread monad whose only blocking operation is the call of the
    registered synchronisation callback, and a barrier-synchronous execution
    of a parallel region. *)

From stdpp Require Import gmap list.
From Stdlib Require Import ZArith Lia.

Local Open Scope Z_scope.

(** ** C [int] arithmetic

    [int] is 32 bits wide.  Signed overflow is undefined in C; the model
    writes out what the usual two's complement targets do, wrap-around, and
    [in_int] says when a mathematical result is representable, i.e. when no
    overflow happens. *)
Module Int.

Definition INT_MIN : Z := -2147483648.
Definition INT_MAX : Z := 2147483647.

Definition in_int (z : Z) : Prop := INT_MIN <= z <= INT_MAX.

Definition wrap (z : Z) : Z := (z + 2147483648) mod 4294967296 - 2147483648.

Definition add (a b : Z) : Z := wrap (a + b).
Definition sub (a b : Z) : Z := wrap (a - b).
Definition mul (a b : Z) : Z := wrap (a * b).
(** C division truncates towards zero: [Z.quot]. *)
Definition div (a b : Z) : Z := wrap (Z.quot a b).

End Int.

(** ** The work partition (mylib.c, [mylib_vector_add] and [mylib_vector_dot])

<<
  int elements_per_thread = (vsize - 1) / tcontrol->tsize + 1;
  int begin_index = tcontrol->tid * elements_per_thread;
  int end_index   = (tcontrol->tid + 1) * elements_per_thread;
  if (end_index > vsize)
    end_index = vsize;
>> *)
Definition elements_per_thread (vsize tsize : Z) : Z :=
  Int.add (Int.div (Int.sub vsize 1) tsize) 1.

Definition begin_index (tid tsize vsize : Z) : Z :=
  Int.mul tid (elements_per_thread vsize tsize).

Definition end_index (tid tsize vsize : Z) : Z :=
  let e := Int.mul (Int.add tid 1) (elements_per_thread vsize tsize) in
  if e >? vsize then vsize else e.

(** The indices the loop [for (i = begin_index; i < end_index; ++i)] visits. *)
Definition in_range (tid tsize vsize i : Z) : Prop :=
  begin_index tid tsize vsize <= i < end_index tid tsize vsize.

(** Number of iterations of that loop. *)
Definition range_size (tid tsize vsize : Z) : Z :=
  Z.max 0 (end_index tid tsize vsize - begin_index tid tsize vsize).

(** ** Scalars

    The kernels compute with [double].  The model is parametric in the
    scalar type and its operations, so that statements about the order of the
    operations hold for any arithmetic, rounding included; [ExactDouble]
    adds the laws of exact (integer, rational, real) arithmetic that the
    kernels rely on when a result is compared with a sequential sum. *)
Class Double (R : Type) := {
  dzero : R;
  dadd : R -> R -> R;
  dmul : R -> R -> R
}.

#[export] Instance Z_Double : Double Z :=
  {| dzero := 0; dadd := Z.add; dmul := Z.mul |}.

Class ExactDouble (R : Type) `{Double R} : Prop := {
  dadd_assoc : forall x y z : R, dadd x (dadd y z) = dadd (dadd x y) z;
  dadd_zero_r : forall x : R, dadd x dzero = x
}.

#[export] Instance Z_ExactDouble : ExactDouble Z.
Proof. split; cbn; intros; lia. Qed.

(** ** Memory

    Addresses are integers, [NULL] is 0.  A heap maps the address of every
    live block to its contents.  Struct fields and buffer cells that have
    never been assigned are indeterminate: [None]. *)
Abbreviation addr := Z.
Definition NULL : addr := 0.

(** LP64 sizes. *)
Definition sizeof_double : Z := 8.
Definition sizeof_ThreadFactory_internal : Z := 24.
Definition sizeof_ThreadControl_internal : Z := 16.

(** Conversion to [size_t] (64 bits, unsigned). *)
Definition to_size_t (z : Z) : Z := z mod 18446744073709551616.

(** mylib.h: [mylib_ThreadFactory_internal]. *)
Record mylib_ThreadFactory_internal := {
  sync : option addr;        (* pointer to void sync(int tid, int size, void *data) *)
  sync_data : option addr;   (* void* sync_data *)
  shared_data : option addr  (* void* shared_data *)
}.

(** mylib.h: [mylib_ThreadControl_internal]. *)
Record mylib_ThreadControl_internal := {
  tid : option Z;              (* int tid *)
  tsize : option Z;            (* int tsize *)
  shared_context : option addr (* mylib_ThreadFactory shared_context *)
}.

Inductive field :=
| F_sync | F_sync_data | F_shared_data
| F_tid | F_tsize | F_shared_context.

#[export] Instance field_eq_dec : EqDecision field.
Proof. solve_decision. Defined.

(** What [malloc] hands out before anything is stored. *)
Definition fresh_factory : mylib_ThreadFactory_internal :=
  {| sync := None; sync_data := None; shared_data := None |}.
Definition fresh_control : mylib_ThreadControl_internal :=
  {| tid := None; tsize := None; shared_context := None |}.

(** ** The C library allocator

    [malloc] is external.  [malloc_at live n] is the address it returns for
    a request of [n] bytes when the blocks at [live] are in use, [None] when
    the memory cannot be obtained; what it returns is never [NULL] and never
    a block in use. *)
Class Allocator := {
  malloc_at : gset addr -> Z -> option addr;
  malloc_fresh : forall live n a, malloc_at live n = Some a -> a <> NULL /\ a ∉ live
}.

(** ** Outcomes *)
Inductive outcome (A : Type) :=
| Done (a : A)
| Fault.  (* undefined behaviour: null, dangling or out-of-bounds access,
             invalid free, call through or use of an indeterminate value *)
Arguments Done {A} a.
Arguments Fault {A}.

Section Model.

Context {R : Type} `{DR : Double R}.

(** A block: a factory, a control, or raw bytes used as [double[]]
    ([num_bytes] as passed to [malloc], cell [i] at bytes [8i .. 8i+7]). *)
Inductive object :=
| OFactory (f : mylib_ThreadFactory_internal)
| OControl (c : mylib_ThreadControl_internal)
| OBuffer (num_bytes : Z) (cells : gmap Z R).

Definition get_field (o : object) (fld : field) : option (option Z) :=
  match o, fld with
  | OFactory f, F_sync => Some (sync f)
  | OFactory f, F_sync_data => Some (sync_data f)
  | OFactory f, F_shared_data => Some (shared_data f)
  | OControl c, F_tid => Some (tid c)
  | OControl c, F_tsize => Some (tsize c)
  | OControl c, F_shared_context => Some (shared_context c)
  | _, _ => None
  end.

Definition set_field (o : object) (fld : field) (v : Z) : option object :=
  match o, fld with
  | OFactory f, F_sync =>
      Some (OFactory {| sync := Some v; sync_data := sync_data f; shared_data := shared_data f |})
  | OFactory f, F_sync_data =>
      Some (OFactory {| sync := sync f; sync_data := Some v; shared_data := shared_data f |})
  | OFactory f, F_shared_data =>
      Some (OFactory {| sync := sync f; sync_data := sync_data f; shared_data := Some v |})
  | OControl c, F_tid =>
      Some (OControl {| tid := Some v; tsize := tsize c; shared_context := shared_context c |})
  | OControl c, F_tsize =>
      Some (OControl {| tid := tid c; tsize := Some v; shared_context := shared_context c |})
  | OControl c, F_shared_context =>
      Some (OControl {| tid := tid c; tsize := tsize c; shared_context := Some v |})
  | _, _ => None
  end.

(** Cell [i] of a buffer of [n] bytes lies inside it. *)
Definition in_bounds (n i : Z) : bool :=
  (0 <=? i) && (sizeof_double * i + sizeof_double <=? n).

Context {AL : Allocator}.

(** The operations a library routine performs on its environment. *)
Inductive op : Type -> Type :=
| Malloc (n : Z) (init : object) : op addr
| Free (p : addr) : op unit
| GetField (p : addr) (fld : field) : op (option Z)
| SetField (p : addr) (fld : field) (v : Z) : op unit
| LoadDouble (p : addr) (i : Z) : op R
| StoreDouble (p : addr) (i : Z) (x : R) : op unit
| CallSync (fn : option addr) (tid tsize : option Z) (data : option addr) : op unit.

(** What is recorded of an execution: the calls into the environment
    ([malloc], [free], the synchronisation callback) and the accesses to
    shared memory (the factory's [shared_data] slot, array elements).
    Reads and writes of the other struct fields are not recorded. *)
Inductive event :=
| EvMalloc (n : Z) (p : addr)
| EvFree (p : addr)
| EvGetShared (f : addr) (v : option Z)
| EvSetShared (f : addr) (v : Z)
| EvRead (p : addr) (i : Z)
| EvWrite (p : addr) (i : Z)
| EvSync (tid tsize : option Z) (data : option addr).

Definition event_of {B} (o : op B) : B -> list event :=
  match o in op B return B -> list event with
  | Malloc n _ => fun p => [EvMalloc n p]
  | Free p => fun _ => [EvFree p]
  | GetField f F_shared_data => fun v => [EvGetShared f v]
  | SetField f F_shared_data v => fun _ => [EvSetShared f v]
  | GetField _ _ => fun _ => []
  | SetField _ _ _ => fun _ => []
  | LoadDouble p i => fun _ => [EvRead p i]
  | StoreDouble p i _ => fun _ => [EvWrite p i]
  | CallSync _ t n d => fun _ => [EvSync t n d]
  end.

(** Effect of an operation on the heap.  [CallSync] only checks that the
    callback can be called; the rendezvous belongs to the scheduler. *)
Definition exec_op {B} (o : op B) (h : gmap addr object) : outcome (B * gmap addr object) :=
  match o in op B return outcome (B * gmap addr object) with
  | Malloc n init =>
      match malloc_at (dom h) n with
      | Some a => Done (a, <[a := init]> h)
      | None => Done (NULL, h)
      end
  | Free p =>
      if decide (p = NULL) then Done (tt, h)
      else match h !! p with
           | Some _ => Done (tt, delete p h)
           | None => Fault
           end
  | GetField p fld =>
      match h !! p with
      | Some o =>
          match get_field o fld with
          | Some v => Done (v, h)
          | None => Fault
          end
      | None => Fault
      end
  | SetField p fld v =>
      match h !! p with
      | Some o =>
          match set_field o fld v with
          | Some o' => Done (tt, <[p := o']> h)
          | None => Fault
          end
      | None => Fault
      end
  | LoadDouble p i =>
      match h !! p with
      | Some (OBuffer n cells) =>
          if in_bounds n i then
            match cells !! i with
            | Some x => Done (x, h)
            | None => Fault
            end
          else Fault
      | _ => Fault
      end
  | StoreDouble p i x =>
      match h !! p with
      | Some (OBuffer n cells) =>
          if in_bounds n i then Done (tt, <[p := OBuffer n (<[i := x]> cells)]> h)
          else Fault
      | _ => Fault
      end
  | CallSync fn _ _ _ =>
      match fn with
      | Some f => if decide (f = NULL) then Fault else Done (tt, h)
      | None => Fault
      end
  end.

(** ** Thread programs *)
Inductive thread (A : Type) : Type :=
| Ret (a : A)
| Undefined
| Vis {B : Type} (o : op B) (k : B -> thread A).
Arguments Ret {A} a.
Arguments Undefined {A}.
Arguments Vis {A B} o k.

Fixpoint bind {A B} (t : thread A) (k : A -> thread B) : thread B :=
  match t with
  | Ret a => k a
  | Undefined => Undefined
  | Vis o k' => Vis o (fun b => bind (k' b) k)
  end.

#[local] Instance thread_ret : MRet thread := @Ret.
#[local] Instance thread_bind : MBind thread := fun A B k t => bind t k.

Definition trigger {B} (o : op B) : thread B := Vis o Ret.

Definition malloc (n : Z) (init : object) : thread addr := trigger (Malloc n init).
Definition free (p : addr) : thread unit := trigger (Free p).
(** [p->fld] read as it is, possibly indeterminate. *)
Definition get (p : addr) (fld : field) : thread (option Z) := trigger (GetField p fld).
Definition set (p : addr) (fld : field) (v : Z) : thread unit := trigger (SetField p fld v).
(** A value that is computed with must be determinate. *)
Definition definite (v : option Z) : thread Z :=
  match v with Some z => Ret z | None => Undefined end.
Definition load (p : addr) (fld : field) : thread Z := v ← get p fld; definite v.
Definition load_double (p : addr) (i : Z) : thread R := trigger (LoadDouble p i).
Definition store_double (p : addr) (i : Z) (x : R) : thread unit := trigger (StoreDouble p i x).
Definition call_sync (fn : option addr) (tid tsize : option Z) (data : option addr) : thread unit :=
  trigger (CallSync fn tid tsize data).

(** [for (i = b; i < e; ++i) body].  The loop runs [e - b] times when
    [b < e] and not at all otherwise, which is the fuel given to it. *)
Fixpoint for_loop (fuel : nat) (i e : Z) (body : Z -> thread unit) : thread unit :=
  match fuel with
  | O => Ret tt
  | S fuel' =>
      if i <? e then body i ;; for_loop fuel' (Int.add i 1) e body else Ret tt
  end.

Definition for_range (b e : Z) (body : Z -> thread unit) : thread unit :=
  for_loop (Z.to_nat (e - b)) b e body.

(** ** Part 1 of mylib.c: thread control and management

    The routines are declared [int] but have no [return] statement: no
    status reaches the caller, so the model returns what is stored through
    the output parameter, or nothing. *)

(** [*tfactory = (mylib_ThreadFactory)malloc(sizeof(mylib_ThreadFactory_internal));] *)
Definition mylib_ThreadFactory_create : thread addr :=
  malloc sizeof_ThreadFactory_internal (OFactory fresh_factory).

Definition mylib_ThreadFactory_destroy (tfactory : addr) : thread unit :=
  free tfactory.

Definition mylib_ThreadFactory_create_control (tfactory : addr) : thread addr :=
  new_tcontrol ← malloc sizeof_ThreadControl_internal (OControl fresh_control);
  set new_tcontrol F_tid 0;;
  set new_tcontrol F_tsize 0;;
  set new_tcontrol F_shared_context tfactory;;
  mret new_tcontrol.

Definition mylib_ThreadFactory_destroy_control (tfactory tcontrol : addr) : thread unit :=
  free tcontrol.

(** [tcontrol->shared_context->sync(tcontrol->tid, tcontrol->tsize,
    tcontrol->shared_context->sync_data);] *)
Definition mylib_ThreadControl_sync (tcontrol : addr) : thread unit :=
  ctx ← load tcontrol F_shared_context;
  fn ← get ctx F_sync;
  t ← get tcontrol F_tid;
  n ← get tcontrol F_tsize;
  data ← get ctx F_sync_data;
  call_sync fn t n data.

(** The [int num_bytes] reaches [malloc] converted to [size_t]; the value
    stored through [ptr] is returned. *)
Definition mylib_ThreadControl_malloc (tcontrol : addr) (num_bytes : Z) : thread (option Z) :=
  mylib_ThreadControl_sync tcontrol;;
  t ← load tcontrol F_tid;
  (if t =? 0 then
     ctx ← load tcontrol F_shared_context;
     p ← malloc (to_size_t num_bytes) (OBuffer (to_size_t num_bytes) ∅);
     set ctx F_shared_data p
   else mret tt);;
  mylib_ThreadControl_sync tcontrol;;
  ctx ← load tcontrol F_shared_context;
  get ctx F_shared_data.

Definition mylib_ThreadControl_free (tcontrol : addr) (ptr : addr) : thread unit :=
  mylib_ThreadControl_sync tcontrol;;
  t ← load tcontrol F_tid;
  if t =? 0 then free ptr else mret tt.

(** ** Part 2 of mylib.c: worker routines *)

Definition mylib_vector_add (tcontrol v1 v2 vresult : addr) (vsize : Z) : thread unit :=
  n ← load tcontrol F_tsize;
  t ← load tcontrol F_tid;
  for_range (begin_index t n vsize) (end_index t n vsize) (fun i =>
    x ← load_double v1 i;
    y ← load_double v2 i;
    store_double vresult i (dadd x y)).

(** [tcontrol->tsize * sizeof(double)] is computed in [size_t] and converted
    to the [int] parameter [num_bytes]. *)
Definition scratch_bytes (n : Z) : Z :=
  Int.wrap (to_size_t (to_size_t n * sizeof_double)).

Definition mylib_vector_dot (tcontrol v1 v2 dotresult : addr) (vsize : Z) : thread unit :=
  n ← load tcontrol F_tsize;
  r ← mylib_ThreadControl_malloc tcontrol (scratch_bytes n);
  thread_results ← definite r;
  t ← load tcontrol F_tid;
  store_double thread_results t dzero;;
  n ← load tcontrol F_tsize;
  t ← load tcontrol F_tid;
  for_range (begin_index t n vsize) (end_index t n vsize) (fun i =>
    t ← load tcontrol F_tid;
    acc ← load_double thread_results t;
    x ← load_double v1 i;
    y ← load_double v2 i;
    store_double thread_results t (dadd acc (dmul x y)));;
  mylib_ThreadControl_sync tcontrol;;
  t ← load tcontrol F_tid;
  (if t =? 0 then
     n ← load tcontrol F_tsize;
     for_range 1 n (fun i =>
       acc ← load_double thread_results 0;
       x ← load_double thread_results i;
       store_double thread_results 0 (dadd acc x));;
     x ← load_double thread_results 0;
     store_double dotresult 0 x
   else mret tt);;
  mylib_ThreadControl_sync tcontrol;;
  mylib_ThreadControl_free tcontrol thread_results.

(** ** Execution of one thread

    [run_solo] runs a routine as the calling thread sees it when its peers
    arrive at every rendezvous: each call of the synchronisation callback
    returns.  It yields the result, the heap and the recorded events. *)
Definition prepend {X} (evs : list event)
    (r : outcome (X * gmap addr object * list event))
  : outcome (X * gmap addr object * list event) :=
  match r with
  | Done (x, h, evs') => Done (x, h, evs ++ evs')
  | Fault => Fault
  end.

Fixpoint run_solo {A} (t : thread A) (h : gmap addr object)
  : outcome (A * gmap addr object * list event) :=
  match t with
  | Ret a => Done (a, h, [])
  | Undefined => Fault
  | Vis o k =>
      match exec_op o h with
      | Done (b, h') => prepend (event_of o b) (run_solo (k b) h')
      | Fault => Fault
      end
  end.

(** ** Execution of a parallel region

    The threads of a region run from rendezvous to rendezvous.  A thread is
    ready to run, blocked in the synchronisation callback, or has returned.
    The callback's contract (spec, SyncCallback) is built into the
    scheduler: nobody leaves the callback before every thread of the region
    has entered it with the region's thread count.  Between two rendezvous
    the threads run in the order the schedule gives for that phase, each up
    to its next call of the callback. *)
Inductive tstate (A : Type) :=
| Ready (t : thread A)
| Blocked (count : option Z) (k : thread A)
| Finished (a : A).
Arguments Ready {A} t.
Arguments Blocked {A} count k.
Arguments Finished {A} a.

Record world := {
  heap : gmap addr object;
  trace : list (nat * event)
}.

Definition sync_count {B} (o : op B) : option (option Z) :=
  match o with
  | CallSync _ _ n _ => Some n
  | _ => None
  end.

(** A thread runs up to its next call of the callback, or to its return. *)
Fixpoint run_segment {A} (t : thread A) (h : gmap addr object)
  : outcome (tstate A * gmap addr object * list event) :=
  match t with
  | Ret a => Done (Finished a, h, [])
  | Undefined => Fault
  | Vis o k =>
      match exec_op o h with
      | Done (b, h') =>
          match sync_count o with
          | Some n => Done (Blocked n (k b), h', event_of o b)
          | None => prepend (event_of o b) (run_segment (k b) h')
          end
      | Fault => Fault
      end
  end.

(** Thread [i] takes its turn: its events are recorded under its index. *)
Definition advance {A} (i : nat) (t : thread A) (w : world) : outcome (tstate A * world) :=
  match run_segment t (heap w) with
  | Done (st, h', evs) =>
      Done (st, {| heap := h'; trace := trace w ++ map (pair i) evs |})
  | Fault => Fault
  end.

Fixpoint run_phase {A} (order : list nat) (pool : list (tstate A)) (w : world)
  : outcome (list (tstate A) * world) :=
  match order with
  | [] => Done (pool, w)
  | i :: rest =>
      match pool !! i with
      | Some (Ready t) =>
          match advance i t w with
          | Done (st, w') => run_phase rest (<[i := st]> pool) w'
          | Fault => Fault
          end
      | _ => run_phase rest pool w
      end
  end.

Definition finished {A} (st : tstate A) : option A :=
  match st with Finished a => Some a | _ => None end.

(** A thread leaves the callback when the count it passed is the number of
    threads of the region. *)
Definition released {A} (size : nat) (st : tstate A) : option (tstate A) :=
  match st with
  | Blocked (Some n) k => if decide (n = Z.of_nat size) then Some (Ready k) else None
  | _ => None
  end.

Inductive result (A : Type) :=
| Returned (values : list A) (w : world)  (* every thread returned *)
| Crashed                                 (* some thread ran into undefined behaviour *)
| Deadlock                                (* the rendezvous can never complete *)
| OutOfFuel.
Arguments Returned {A} values w.
Arguments Crashed {A}.
Arguments Deadlock {A}.
Arguments OutOfFuel {A}.

Fixpoint run_region {A} (fuel : nat) (sched : nat -> list nat) (phase : nat)
    (pool : list (tstate A)) (w : world) : result A :=
  match fuel with
  | O => OutOfFuel
  | S fuel' =>
      match run_phase (sched phase) pool w with
      | Fault => Crashed
      | Done (pool', w') =>
          match mapM finished pool' with
          | Some values => Returned values w'
          | None =>
              match mapM (released (length pool')) pool' with
              | Some pool'' => run_region fuel' sched (S phase) pool'' w'
              | None => Deadlock
              end
          end
      end
  end.

(** The region in which thread [i] of [size] runs [prog i]. *)
Definition spmd {A} (size : nat) (prog : nat -> thread A) : list (tstate A) :=
  map (fun i => Ready (prog i)) (seq 0 size).

(** A schedule is fair for a region of [size] threads when every phase runs
    every thread once. *)
Definition fair (size : nat) (sched : nat -> list nat) : Prop :=
  forall phase, Permutation (sched phase) (seq 0 size).

(** The events of thread [i] in a trace. *)
Definition events_of (i : nat) (tr : list (nat * event)) : list event :=
  map snd (filter (fun e => e.1 = i) tr).

End Model.

Arguments object : clear implicits.
Arguments op : clear implicits.
Arguments thread : clear implicits.
Arguments tstate : clear implicits.
Arguments result : clear implicits.
Arguments world : clear implicits.
Arguments Ret {R A} a.
Arguments Undefined {R A}.
Arguments Vis {R A B} o k.
Arguments Ready {R A} t.
Arguments Blocked {R A} count k.
Arguments Finished {R A} a.
Arguments Returned {R A} values w.
Arguments Crashed {R A}.
Arguments Deadlock {R A}.
Arguments OutOfFuel {R A}.

(** ** Vocabulary of the statements *)

(** [ceil_div vsize tsize] is what [elements_per_thread] computes in
    unbounded integers; [no_overflow tsize vsize]: the largest product the
    partition computes, [tsize * elements_per_thread], is representable. *)
Definition ceil_div (vsize tsize : Z) : Z := Z.quot (vsize - 1) tsize + 1.

Definition no_overflow (tsize vsize : Z) : Prop :=
  tsize * ceil_div vsize tsize <= Int.INT_MAX.

(** The range of thread [t] of [n], in the order the loops visit it. *)
Definition range (vsize t n : Z) : list Z :=
  seqZ (begin_index t n vsize) (end_index t n vsize - begin_index t n vsize).

(** The events of [mylib_ThreadControl_malloc]: between its rendezvous,
    and up to its second rendezvous. *)
Definition malloc_write_events (t : Z) (f : addr) (nb : Z) (p : addr) : list event :=
  if t =? 0 then [EvMalloc (to_size_t nb) p; EvSetShared f p] else [].

Definition malloc_events (t n : Z) (f : addr) (d : option addr) (nb : Z) (p : addr)
  : list event :=
  [EvSync (Some t) (Some n) d] ++ malloc_write_events t f nb p ++ [EvSync (Some t) (Some n) d].

Section Vocabulary.

Context {R : Type} {DR : Double R} {AL : Allocator}.

Local Abbreviation heap_t := (gmap addr (object R)).

(** What [malloc (n)] returns in heap [h], and the heap it leaves. *)
Definition malloc_result (h : heap_t) (n : Z) (init : object R) : addr * heap_t :=
  match malloc_at (dom h) n with
  | Some a => (a, <[a := init]> h)
  | None => (NULL, h)
  end.

(** The control at [tc] has [tid = t], [tsize = n] and the factory [f]. *)
Definition control_at (h : heap_t) (tc : addr) (t n : Z) (f : addr) : Prop :=
  h !! tc = Some (OControl {| tid := Some t; tsize := Some n; shared_context := Some f |}).

(** The factory at [f] has a callback registered; [d] is its auxiliary
    data and [s] the contents of its shared slot. *)
Definition factory_at (h : heap_t) (f : addr) (fn : addr) (d s : option addr) : Prop :=
  fn <> NULL /\
  h !! f = Some (OFactory {| sync := Some fn; sync_data := d; shared_data := s |}).

(** A region: [size] threads, thread [i] holding the control at [tc i]
    with [tid = i] and [tsize = size], all on the factory at [f]. *)
Definition region_ok (h : heap_t) (size : nat) (tc : nat -> addr) (f fn : addr)
    (d s : option addr) : Prop :=
  factory_at h f fn d s /\
  forall i : nat, (i < size)%nat -> control_at h (tc i) (Z.of_nat i) (Z.of_nat size) f.

(** [mylib_ThreadControl_malloc] immediately followed by
    [mylib_ThreadControl_free] of the address received. *)
Definition malloc_then_free (tcontrol : addr) (num_bytes : Z) : thread R unit :=
  bind (mylib_ThreadControl_malloc tcontrol num_bytes) (fun r =>
  bind (definite r) (fun ptr => mylib_ThreadControl_free tcontrol ptr)).

(** [p[i]], when [p] is a buffer and the cell has been assigned. *)
Definition cell (h : heap_t) (p : addr) (i : Z) : option R :=
  match h !! p with
  | Some (OBuffer _ cells) => cells !! i
  | _ => None
  end.

(** The heap after [p[i] = x]. *)
Definition store_cell (h : heap_t) (p : addr) (i : Z) (x : R) : heap_t :=
  match h !! p with
  | Some (OBuffer n cells) => <[p := OBuffer n (<[i := x]> cells)]> h
  | _ => h
  end.

(** [p] points to a buffer with room for [vsize] doubles. *)
Definition array_at (h : heap_t) (p : addr) (vsize : Z) : Prop :=
  exists n cells, h !! p = Some (OBuffer n cells) /\ sizeof_double * vsize <= n.

(** ... whose first [vsize] cells hold [a 0], [a 1], ... *)
Definition holds (h : heap_t) (p : addr) (vsize : Z) (a : Z -> R) : Prop :=
  array_at h p vsize /\ forall i, 0 <= i < vsize -> cell h p i = Some (a i).

(** [acc += a[i] * b[i]] over the indices of [l], in order. *)
Definition dot_fold (a b : Z -> R) (l : list Z) (acc : R) : R :=
  foldl (fun acc i => dadd acc (dmul (a i) (b i))) acc l.

(** The sequential sum of [a[i] * b[i]] over [0, vsize). *)
Definition sequential_dot (a b : Z -> R) (vsize : Z) : R :=
  dot_fold a b (seqZ 0 vsize) dzero.

(** What thread [t] of [n] leaves in its slot of the scratch buffer. *)
Definition partial (a b : Z -> R) (vsize n t : Z) : R :=
  dot_fold a b (range vsize t n) dzero.

(** What thread 0 leaves in slot 0 and writes to [dotresult]: slot 0, then
    slots 1, ..., [n - 1] added in this order. *)
Definition dot_total (a b : Z -> R) (vsize n : Z) : R :=
  foldl (fun acc t => dadd acc (partial a b vsize n t)) (partial a b vsize n 0)
        (seqZ 1 (n - 1)).

End Vocabulary.

(** ** A concrete allocator

    The block above every block in use; a request of more than [limit]
    bytes cannot be served. *)
Definition top (live : gset addr) : Z := set_fold Z.max 0 live.

Lemma top_upper (live : gset addr) : 0 <= top live /\ forall a, a ∈ live -> a <= top live.
Proof.
  unfold top.
  apply (set_fold_ind_L (fun r X => 0 <= r /\ forall a, a ∈ X -> a <= r)).
  - split; [lia | set_solver].
  - intros x X r Hx [H0 IH]. split; [lia |].
    intros a [->%elem_of_singleton | Ha]%elem_of_union; [lia |].
    specialize (IH a Ha). lia.
Qed.

#[export] Program Instance bump_allocator (limit : Z) : Allocator := {|
  malloc_at live n := if n <=? limit then Some (top live + 1) else None
|}.
Next Obligation.
  intros limit live n a H. cbn in H. destruct (n <=? limit); [| discriminate].
  injection H as <-. destruct (top_upper live) as [H0 Hle]. split.
  - unfold NULL. lia.
  - intros Hin. specialize (Hle _ Hin). lia.
Qed.

(** ** Concrete arrays

    [fill x n]: the cells of an array whose first [n] elements are [x 0],
    [x 1], ... *)
Definition fill {R} (x : Z -> R) (n : Z) : gmap Z R :=
  list_to_map ((fun i => (i, x i)) <$> seqZ 0 n).

(** ** Concrete regions

    The set-up of the drivers: one factory (at 100) with a callback
    registered and, as in with_openmp.c, no auxiliary data; a control per
    thread (at 200, 201, ...) with [tid] and [tsize] assigned; the scalars
    are integers. *)
Definition control_of (t n : Z) (f : addr) : object Z :=
  OControl {| tid := Some t; tsize := Some n; shared_context := Some f |}.

Definition tc_of (i : nat) : addr := 200 + Z.of_nat i.

Definition region_heap (size : nat) : gmap addr (object Z) :=
  <[100 := OFactory {| sync := Some 7; sync_data := None; shared_data := None |}]>
    (list_to_map ((fun i => (tc_of i, control_of (Z.of_nat i) (Z.of_nat size) 100))
                    <$> seq 0 size)).

(** An array of [n] doubles holding [x 0], [x 1], ..., and one not yet
    assigned. *)
Definition array_of (x : Z -> Z) (n : Z) : object Z :=
  OBuffer (sizeof_double * n) (fill x n).
Definition blank (n : Z) : object Z := OBuffer (sizeof_double * n) ∅.

(** [v1] at 10, [v2] at 11 and the output array at 12. *)
Definition kernel_heap (size : nat) (x y : Z -> Z) (n : Z) : gmap addr (object Z) :=
  <[10 := array_of x n]> (<[11 := array_of y n]> (<[12 := blank n]> (region_heap size))).

(** The drivers' vectors: [v1 = 0, 1, ..., 9] and [v2 = 10, 9, ..., 1], for
    4 threads. *)
Definition demo_heap : gmap addr (object Z) :=
  kernel_heap 4 (fun i => i) (fun i => 10 - i) 10.

(** The heap of the last of 65537 threads on vectors of [INT_MAX]
    elements. *)
Definition last_thread_heap : gmap addr (object Z) :=
  <[10 := array_of (fun _ => 1) 2147483647]>
    (<[11 := array_of (fun _ => 1) 2147483647]>
       (<[12 := blank 2147483647]> {[200 := control_of 65536 65537 100]})).

(** Schedules: every phase in the order of the thread indices, or in the
    opposite order. *)
Definition in_order (size : nat) : nat -> list nat := fun _ => seq 0 size.
Definition backwards (size : nat) : nat -> list nat := fun _ => reverse (seq 0 size).

(** * Properties *)

(** ** [int] arithmetic without overflow *)

Lemma wrap_in_int (z : Z) : Int.in_int z -> Int.wrap z = z.
Proof.
  unfold Int.in_int, Int.INT_MIN, Int.INT_MAX, Int.wrap. intros Hz.
  rewrite Z.mod_small by lia. lia.
Qed.

Lemma wrap_is_int (z : Z) : Int.in_int (Int.wrap z).
Proof.
  unfold Int.in_int, Int.INT_MIN, Int.INT_MAX, Int.wrap.
  pose proof (Z.mod_pos_bound (z + 2147483648) 4294967296). lia.
Qed.

(** ** The partition *)

Lemma quot_rem_facts (a b : Z) :
  0 < b ->
  a = b * Z.quot a b + Z.rem a b /\
  (0 <= a -> 0 <= Z.rem a b < b) /\
  (a <= 0 -> - b < Z.rem a b <= 0).
Proof.
  intros Hb. split; [apply Z.quot_rem'; lia |]. split; intros Ha.
  - apply Z.rem_bound_pos; lia.
  - pose proof (Z.rem_bound_abs a b ltac:(lia)).
    pose proof (Z.rem_nonpos a b ltac:(lia) Ha). lia.
Qed.

Lemma ceil_div_bounds (tsize vsize : Z) :
  1 <= tsize -> 0 <= vsize ->
  0 <= ceil_div vsize tsize /\
  vsize <= tsize * ceil_div vsize tsize /\
  (1 <= vsize -> 1 <= ceil_div vsize tsize) /\
  (1 <= vsize -> tsize * ceil_div vsize tsize <= vsize - 1 + tsize).
Proof.
  intros Ht Hv. unfold ceil_div.
  destruct (quot_rem_facts (vsize - 1) tsize) as (Heq & Hpos & Hneg); [lia |].
  set (q := Z.quot (vsize - 1) tsize) in *. set (r := Z.rem (vsize - 1) tsize) in *.
  destruct (Z.eq_dec vsize 0) as [-> | Hne].
  - specialize (Hneg ltac:(lia)). repeat split; try lia; nia.
  - specialize (Hpos ltac:(lia)). repeat split; try lia; nia.
Qed.

(** Without overflow the C expressions compute the mathematical ones. *)
Lemma no_overflow_ints (tsize vsize : Z) :
  1 <= tsize -> 0 <= vsize -> no_overflow tsize vsize ->
  Int.in_int tsize /\ Int.in_int vsize.
Proof.
  unfold no_overflow, Int.in_int, Int.INT_MIN, Int.INT_MAX. intros Ht Hv Hno.
  destruct (ceil_div_bounds tsize vsize Ht Hv) as (H0 & Hcov & H1 & _).
  destruct (Z.eq_dec vsize 0) as [-> | Hne].
  - destruct (Z.eq_dec tsize 1) as [-> | Hn1]; [lia |].
    assert (ceil_div 0 tsize = 1) as Hc.
    { unfold ceil_div. change (0 - 1) with (-1).
      assert (Z.quot (-1) tsize = 0) as -> by (apply Z.quot_small_iff; lia). reflexivity. }
    rewrite Hc in Hno. lia.
  - specialize (H1 ltac:(lia)). nia.
Qed.

Lemma elements_per_thread_exact (tsize vsize : Z) :
  1 <= tsize -> 0 <= vsize -> no_overflow tsize vsize ->
  elements_per_thread vsize tsize = ceil_div vsize tsize.
Proof.
  intros Ht Hv Hno.
  destruct (no_overflow_ints tsize vsize Ht Hv Hno) as [Hti Hvi].
  destruct (ceil_div_bounds tsize vsize Ht Hv) as (H0 & Hcov & H1 & _).
  unfold no_overflow in Hno. unfold Int.in_int, Int.INT_MIN, Int.INT_MAX in *.
  unfold elements_per_thread, Int.add, Int.div, Int.sub.
  rewrite (wrap_in_int (vsize - 1)) by (unfold Int.in_int, Int.INT_MIN, Int.INT_MAX; lia).
  fold (ceil_div vsize tsize - 1). unfold ceil_div in *.
  assert (Int.in_int (Z.quot (vsize - 1) tsize + 1)) as Hin
    by (unfold Int.in_int, Int.INT_MIN, Int.INT_MAX; nia).
  rewrite (wrap_in_int (Z.quot (vsize - 1) tsize))
    by (unfold Int.in_int, Int.INT_MIN, Int.INT_MAX in *; lia).
  now apply wrap_in_int.
Qed.

Lemma index_exact (tid tsize vsize : Z) :
  1 <= tsize -> 0 <= vsize -> no_overflow tsize vsize -> 0 <= tid < tsize ->
  begin_index tid tsize vsize = tid * ceil_div vsize tsize /\
  end_index tid tsize vsize = Z.min ((tid + 1) * ceil_div vsize tsize) vsize.
Proof.
  intros Ht Hv Hno Htid.
  destruct (no_overflow_ints tsize vsize Ht Hv Hno) as [Hti Hvi].
  destruct (ceil_div_bounds tsize vsize Ht Hv) as (H0 & Hcov & H1 & _).
  unfold begin_index, end_index. rewrite elements_per_thread_exact by assumption.
  unfold no_overflow in Hno. set (e := ceil_div vsize tsize) in *.
  unfold Int.mul, Int.add.
  rewrite (wrap_in_int (tid + 1)) by (unfold Int.in_int, Int.INT_MIN, Int.INT_MAX in *; lia).
  rewrite !wrap_in_int by (unfold Int.in_int, Int.INT_MIN, Int.INT_MAX in *; nia).
  split; [reflexivity |].
  destruct (Z.gtb_spec ((tid + 1) * e) vsize); lia.
Qed.

(** Without overflow the ranges of the threads partition [0, vsize):
    every index lies in the range of exactly one thread. *)
Lemma partition_exact (tsize vsize i : Z) :
  1 <= tsize -> 0 <= vsize -> no_overflow tsize vsize -> 0 <= i < vsize ->
  exists tid, (0 <= tid < tsize /\ in_range tid tsize vsize i) /\
    forall tid', 0 <= tid' < tsize -> in_range tid' tsize vsize i -> tid' = tid.
Proof.
  intros Ht Hv Hno Hi.
  destruct (ceil_div_bounds tsize vsize Ht Hv) as (H0 & Hcov & H1 & _).
  specialize (H1 ltac:(lia)).
  set (e := ceil_div vsize tsize) in *.
  assert (0 <= i / e < tsize) as Hq.
  { split; [apply Z.div_pos; lia |]. apply Z.div_lt_upper_bound; nia. }
  pose proof (Z.div_mod i e ltac:(lia)) as Hdm.
  pose proof (Z.mod_pos_bound i e ltac:(lia)) as Hmod.
  exists (i / e). split.
  - split; [exact Hq |]. unfold in_range.
    destruct (index_exact (i / e) tsize vsize Ht Hv Hno Hq) as [-> ->]. fold e. nia.
  - intros t' Ht' Hin. unfold in_range in Hin.
    destruct (index_exact t' tsize vsize Ht Hv Hno Ht') as [Hb He].
    rewrite Hb, He in Hin. fold e in Hin.
    assert (t' * e <= i < (t' + 1) * e) as Hbetween by lia.
    apply (Z.div_unique i e t' (i - t' * e)); lia.
Qed.

(** Every range lies inside [0, vsize). *)
Lemma range_inside (tid tsize vsize i : Z) :
  1 <= tsize -> 0 <= vsize -> no_overflow tsize vsize -> 0 <= tid < tsize ->
  in_range tid tsize vsize i -> 0 <= i < vsize.
Proof.
  intros Ht Hv Hno Htid. unfold in_range.
  destruct (index_exact tid tsize vsize Ht Hv Hno Htid) as [-> ->].
  destruct (ceil_div_bounds tsize vsize Ht Hv) as (H0 & _). nia.
Qed.

Lemma index_ints (tid tsize vsize : Z) :
  Int.in_int vsize ->
  Int.in_int (begin_index tid tsize vsize) /\ Int.in_int (end_index tid tsize vsize).
Proof.
  intros Hv. unfold begin_index, end_index, Int.mul. split; [apply wrap_is_int |].
  cbv zeta. destruct (_ >? _); [assumption | apply wrap_is_int].
Qed.

(** The sizes of the ranges: full ranges of [ceil_div] elements, then at
    most one shorter range, then empty ones. *)
Lemma range_size_exact (tid tsize vsize : Z) :
  1 <= tsize -> 0 <= vsize -> no_overflow tsize vsize -> 0 <= tid < tsize ->
  range_size tid tsize vsize =
    Z.max 0 (Z.min (ceil_div vsize tsize) (vsize - tid * ceil_div vsize tsize)).
Proof.
  intros Ht Hv Hno Htid. unfold range_size.
  destruct (index_exact tid tsize vsize Ht Hv Hno Htid) as [-> ->]. lia.
Qed.

(** ** Running thread programs *)
Section Running.

Context {R : Type} {DR : Double R} {AL : Allocator}.

Local Abbreviation heap_t := (gmap addr (object R)).

Lemma prepend_nil {X} (r : outcome (X * heap_t * list (@event))) : prepend [] r = r.
Proof. destruct r as [[[x h] e] |]; reflexivity. Qed.

Lemma prepend_prepend {X} (e1 e2 : list event) (r : outcome (X * heap_t * list event)) :
  prepend e1 (prepend e2 r) = prepend (e1 ++ e2) r.
Proof. destruct r as [[[x h] e] |]; cbn; [by rewrite app_assoc | done]. Qed.

(** What follows a segment that ended in [st]. *)
Definition then_segment {A B} (k : A -> thread R B)
    (r : outcome (tstate R A * heap_t * list event))
  : outcome (tstate R B * heap_t * list event) :=
  match r with
  | Done (Finished a, h, evs) => prepend evs (run_segment (k a) h)
  | Done (Blocked n t, h, evs) => Done (Blocked n (bind t k), h, evs)
  | Done (Ready t, h, evs) => Done (Ready (bind t k), h, evs)
  | Fault => Fault
  end.

Lemma then_segment_prepend {A B} (k : A -> thread R B) evs r :
  then_segment k (prepend evs r) = prepend evs (then_segment k r).
Proof.
  destruct r as [[[[t | n t | a] h] e] |]; cbn; try done.
  by rewrite prepend_prepend.
Qed.

Lemma run_segment_bind {A B} (t : thread R A) (k : A -> thread R B) (h : heap_t) :
  run_segment (bind t k) h = then_segment k (run_segment t h).
Proof.
  revert h. induction t as [a | | C o k' IH]; intros h; cbn.
  - by rewrite prepend_nil.
  - done.
  - destruct (exec_op o h) as [[b h'] |]; [| done].
    destruct (sync_count o); [done |].
    by rewrite IH, then_segment_prepend.
Qed.

(** A context [W] around a routine, with [K] what it does with the
    routine's result: [fun t => bind t K], or nothing around it at all. *)
Definition then_context {A B} (W : thread R A -> thread R B) (K : A -> thread R B)
    (r : outcome (tstate R A * heap_t * list event))
  : outcome (tstate R B * heap_t * list event) :=
  match r with
  | Done (Finished a, h, evs) => prepend evs (run_segment (K a) h)
  | Done (Blocked n t, h, evs) => Done (Blocked n (W t), h, evs)
  | Done (Ready t, h, evs) => Done (Ready (W t), h, evs)
  | Fault => Fault
  end.

Definition context {A B} (W : thread R A -> thread R B) (K : A -> thread R B) : Prop :=
  forall t h, run_segment (W t) h = then_context W K (run_segment t h).

Lemma context_bind {A B} (K : A -> thread R B) : context (fun t => bind t K) K.
Proof. intros t h. apply run_segment_bind. Qed.

Lemma context_id {A} : context (fun t : thread R A => t) Ret.
Proof.
  intros t h. destruct (run_segment t h) as [[[[t' | n t' | a] h'] e] |]; cbn; try done.
  by rewrite app_nil_r.
Qed.

Definition then_solo {A B} (k : A -> thread R B)
    (r : outcome (A * heap_t * list event)) : outcome (B * heap_t * list event) :=
  match r with
  | Done (a, h, evs) => prepend evs (run_solo (k a) h)
  | Fault => Fault
  end.

Lemma then_solo_prepend {A B} (k : A -> thread R B) evs r :
  then_solo k (prepend evs r) = prepend evs (then_solo k r).
Proof. destruct r as [[[a h] e] |]; cbn; [by rewrite prepend_prepend | done]. Qed.

Lemma run_solo_bind {A B} (t : thread R A) (k : A -> thread R B) (h : heap_t) :
  run_solo (bind t k) h = then_solo k (run_solo t h).
Proof.
  revert h. induction t as [a | | C o k' IH]; intros h; cbn.
  - by rewrite prepend_nil.
  - done.
  - destruct (exec_op o h) as [[b h'] |]; [| done].
    by rewrite IH, then_solo_prepend.
Qed.

(** The thread-local run is the run from rendezvous to rendezvous with
    every rendezvous completing. *)
Lemma run_solo_segment {A} (t : thread R A) (h : heap_t) :
  run_solo t h =
    match run_segment t h with
    | Done (Finished a, h', evs) => Done (a, h', evs)
    | Done (Blocked _ k, h', evs) => prepend evs (run_solo k h')
    | Done (Ready k, h', evs) => prepend evs (run_solo k h')
    | Fault => Fault
    end.
Proof.
  revert h. induction t as [a | | C o k IH]; intros h; cbn; try done.
  destruct (exec_op o h) as [[b h'] |]; [| done].
  destruct (sync_count o); [done |].
  rewrite IH. destruct (run_segment (k b) h') as [[[[t | n t | a] h2] e] |]; cbn; try done.
  all: by rewrite prepend_prepend.
Qed.

End Running.

Ltac seg_simpl :=
  cbn [then_segment then_context prepend event_of app fst snd]; rewrite ?prepend_nil.

(** *** The primitive operations *)
Section Primitives.

Context {R : Type} {DR : Double R} {AL : Allocator}.

Local Abbreviation heap_t := (gmap addr (object R)).

Lemma seg_get (h : heap_t) p fld o v :
  h !! p = Some o -> get_field o fld = Some v ->
  run_segment (get p fld) h = Done (Finished v, h, event_of (R:=R) (GetField p fld) v).
Proof.
  intros Hp Hf. unfold get, trigger. cbn. rewrite Hp, Hf. cbn. by rewrite app_nil_r.
Qed.

Lemma seg_load (h : heap_t) p fld o v :
  h !! p = Some o -> get_field o fld = Some (Some v) ->
  run_segment (load p fld) h = Done (Finished v, h, event_of (R:=R) (GetField p fld) (Some v)).
Proof.
  intros Hp Hf. unfold load, mbind, thread_bind.
  rewrite run_segment_bind, (seg_get h p fld o (Some v)) by done.
  cbn. by rewrite app_nil_r.
Qed.

Lemma seg_set (h : heap_t) p fld v o o' :
  h !! p = Some o -> set_field o fld v = Some o' ->
  run_segment (set p fld v) h =
    Done (Finished tt, <[p := o']> h, event_of (R:=R) (SetField p fld v) tt).
Proof.
  intros Hp Hf. unfold set, trigger. cbn. rewrite Hp, Hf. cbn. by rewrite app_nil_r.
Qed.

Lemma seg_malloc (h : heap_t) n init :
  run_segment (malloc n init) h =
    Done (Finished (malloc_result h n init).1, (malloc_result h n init).2,
          [EvMalloc n (malloc_result h n init).1]).
Proof.
  unfold malloc, trigger, malloc_result. cbn. by destruct (malloc_at (dom h) n).
Qed.

Lemma seg_free_null (h : heap_t) :
  run_segment (free NULL) h = Done (Finished tt, h, [EvFree NULL]).
Proof. reflexivity. Qed.

Lemma seg_free_live (h : heap_t) p o :
  p <> NULL -> h !! p = Some o ->
  run_segment (free p) h = Done (Finished tt, delete p h, [EvFree p]).
Proof.
  intros Hp Hl. unfold free, trigger. cbn. destruct (decide (p = NULL)); [done |].
  by rewrite Hl.
Qed.

Lemma seg_load_double (h : heap_t) p i n cells x :
  h !! p = Some (OBuffer n cells) -> in_bounds n i = true -> cells !! i = Some x ->
  run_segment (load_double p i) h = Done (Finished x, h, [EvRead p i]).
Proof. intros Hp Hb Hc. unfold load_double, trigger. cbn. by rewrite Hp, Hb, Hc. Qed.

Lemma seg_store_double (h : heap_t) p i n cells x :
  h !! p = Some (OBuffer n cells) -> in_bounds n i = true ->
  run_segment (store_double p i x) h =
    Done (Finished tt, <[p := OBuffer n (<[i := x]> cells)]> h, [EvWrite p i]).
Proof. intros Hp Hb. unfold store_double, trigger. cbn. by rewrite Hp, Hb. Qed.

Lemma seg_call_sync (h : heap_t) fn t n d :
  fn <> NULL ->
  run_segment (call_sync (Some fn) t n d) h = Done (Blocked n (Ret tt), h, [EvSync t n d]).
Proof.
  intros Hfn. unfold call_sync, trigger. cbn. by destruct (decide (fn = NULL)).
Qed.

Lemma seg_sync (h : heap_t) tc t n f fn d s :
  control_at h tc t n f -> factory_at h f fn d s ->
  run_segment (mylib_ThreadControl_sync tc) h =
    Done (Blocked (Some n) (Ret tt), h, [EvSync (Some t) (Some n) d]).
Proof.
  intros Hc [Hfn Hf]. unfold mylib_ThreadControl_sync, mbind, thread_bind.
  rewrite run_segment_bind, (seg_load h tc F_shared_context _ f Hc) by done. seg_simpl.
  rewrite run_segment_bind, (seg_get h f F_sync _ (Some fn) Hf) by done. seg_simpl.
  rewrite run_segment_bind, (seg_get h tc F_tid _ (Some t) Hc) by done. seg_simpl.
  rewrite run_segment_bind, (seg_get h tc F_tsize _ (Some n) Hc) by done. seg_simpl.
  rewrite run_segment_bind, (seg_get h f F_sync_data _ d Hf) by done. seg_simpl.
  by rewrite seg_call_sync.
Qed.

End Primitives.

(** ** The lifecycle routines and the shared buffer, one thread at a time *)
Section Solo.

Context {R : Type} {DR : Double R} {AL : Allocator}.

Local Abbreviation heap_t := (gmap addr (object R)).

Lemma control_at_insert_ne (h : heap_t) tc t n f q o :
  q <> tc -> control_at h tc t n f -> control_at (<[q := o]> h) tc t n f.
Proof. unfold control_at. intros ? ?. by rewrite lookup_insert_ne. Qed.

Lemma control_at_delete_ne (h : heap_t) tc t n f q :
  q <> tc -> control_at h tc t n f -> control_at (delete q h) tc t n f.
Proof. unfold control_at. intros ? ?. by rewrite lookup_delete_ne. Qed.

Lemma factory_at_insert_ne (h : heap_t) f fn d s q o :
  q <> f -> factory_at h f fn d s -> factory_at (<[q := o]> h) f fn d s.
Proof. unfold factory_at. intros ? [? ?]. by rewrite lookup_insert_ne. Qed.

Lemma factory_at_delete_ne (h : heap_t) f fn d s q :
  q <> f -> factory_at h f fn d s -> factory_at (delete q h) f fn d s.
Proof. unfold factory_at. intros ? [? ?]. by rewrite lookup_delete_ne. Qed.

(** What [mylib_ThreadControl_free] does after its rendezvous. *)
Definition free_tail (tcontrol ptr : addr) : thread R unit :=
  bind (load tcontrol F_tid) (fun t => if t =? 0 then free ptr else Ret tt).

Lemma seg_free_routine (h : heap_t) tc ptr t n f fn d s :
  control_at h tc t n f -> factory_at h f fn d s ->
  run_segment (mylib_ThreadControl_free tc ptr) h =
    Done (Blocked (Some n) (free_tail tc ptr), h, [EvSync (Some t) (Some n) d]).
Proof.
  intros Hc Hf. unfold mylib_ThreadControl_free, mbind, thread_bind.
  rewrite run_segment_bind, (seg_sync h tc t n f fn d s) by done. reflexivity.
Qed.

Lemma seg_free_tail (h : heap_t) tc ptr t n f :
  control_at h tc t n f ->
  run_segment (free_tail tc ptr) h =
    if t =? 0 then run_segment (free ptr) h else Done (Finished tt, h, []).
Proof.
  intros Hc. unfold free_tail.
  rewrite run_segment_bind, (seg_load h tc F_tid _ t Hc) by done. seg_simpl.
  by destruct (t =? 0).
Qed.

(** C10: [mylib_ThreadControl_free] returns and leaves every field of the
    control ([tid], [tsize], [shared_context]) and of its factory ([sync],
    [sync_data], [shared_data]) as it found them, whatever address it is
    given to release (null or a buffer).  In particular a [shared_data]
    that held the released address still holds it: the slot is not reset.
    The thread with [tid = 0], and only it, has released the block. *)
Theorem free_leaves_fields_unchanged (h : heap_t) tc ptr t n f fn d s :
  control_at h tc t n f ->
  factory_at h f fn d s ->
  (ptr <> NULL -> exists nb cells, h !! ptr = Some (OBuffer nb cells)) ->
  exists h' evs,
    run_solo (mylib_ThreadControl_free tc ptr) h = Done (tt, h', evs) /\
    control_at h' tc t n f /\
    factory_at h' f fn d s /\
    (s = Some ptr ->
       h' !! f = Some (OFactory {| sync := Some fn; sync_data := d; shared_data := Some ptr |})) /\
    (t = 0 -> ptr <> NULL -> h' = delete ptr h) /\
    (t <> 0 \/ ptr = NULL -> h' = h).
Proof.
  intros Hc Hf Hptr. pose proof Hf as [Hfn Hfl].
  rewrite run_solo_segment, (seg_free_routine h tc ptr t n f fn d s) by done.
  rewrite run_solo_segment, (seg_free_tail h tc ptr t n f) by done.
  destruct (Z.eqb_spec t 0) as [-> | Hne].
  - destruct (decide (ptr = NULL)) as [-> | Hnn].
    + rewrite seg_free_null. cbn. exists h, [EvSync (Some 0) (Some n) d; EvFree NULL].
      repeat split; try done. by intros ->.
    + destruct (Hptr Hnn) as (nb & cells & Hbuf).
      assert (ptr <> tc) as Hptc by (intros ->; unfold control_at in Hc; congruence).
      assert (ptr <> f) as Hpf by (intros ->; congruence).
      rewrite (seg_free_live h ptr _ Hnn Hbuf). cbn.
      exists (delete ptr h), [EvSync (Some 0) (Some n) d; EvFree ptr].
      split; [done |]. split; [by apply control_at_delete_ne |].
      split; [by apply factory_at_delete_ne |].
      split; [| split; [done | intros [? | ?]; done]].
      intros ->. by rewrite lookup_delete_ne.
  - cbn. exists h, [EvSync (Some t) (Some n) d].
    repeat split; try done. by intros ->.
Qed.

End Solo.

(** ** Phases of a parallel region *)
Section Region.

Context {R : Type} {DR : Double R} {AL : Allocator}.

Local Abbreviation heap_t := (gmap addr (object R)).

(** The pool in which the threads of [done] have reached [f] and the
    others are still ready to run [g]. *)
Definition mixed {A} (size : nat) (done : list nat)
    (f : nat -> tstate R A) (g : nat -> thread R A) : list (tstate R A) :=
  map (fun i => if decide (i ∈ done) then f i else Ready (g i)) (seq 0 size).

Lemma mixed_lookup {A} size done (f : nat -> tstate R A) g (i : nat) :
  (i < size)%nat ->
  mixed size done f g !! i = Some (if decide (i ∈ done) then f i else Ready (g i)).
Proof.
  intros Hi. unfold mixed. rewrite list_lookup_fmap, lookup_seq_lt by done. done.
Qed.

Lemma mixed_insert {A} size done (f : nat -> tstate R A) g (i : nat) :
  (i < size)%nat ->
  <[i := f i]> (mixed size done f g) = mixed size (i :: done) f g.
Proof.
  intros Hi. apply list_eq. intros j.
  assert (length (mixed size done f g) = size) as Hlen
    by (unfold mixed; by rewrite length_map, length_seq).
  destruct (decide (j < size)%nat) as [Hj | Hj].
  - rewrite (mixed_lookup _ (i :: done)) by done.
    destruct (decide (i = j)) as [-> | Hne].
    + rewrite list_lookup_insert_eq by lia.
      rewrite decide_True by (apply elem_of_cons; by left). done.
    + rewrite list_lookup_insert_ne, mixed_lookup by done.
      destruct (decide (j ∈ done)) as [Hd | Hd].
      * rewrite decide_True by (apply elem_of_cons; by right). done.
      * rewrite decide_False; [done |]. intros [-> | ?]%elem_of_cons; done.
  - rewrite !lookup_ge_None_2; [done | |].
    + unfold mixed. rewrite length_map, length_seq. lia.
    + rewrite length_insert. lia.
Qed.

Lemma events_of_app (i : nat) (tr1 tr2 : list (nat * event)) :
  events_of i (tr1 ++ tr2) = events_of i tr1 ++ events_of i tr2.
Proof. unfold events_of. by rewrite filter_app, map_app. Qed.

Lemma events_of_tagged (i j : nat) (evs : list event) :
  events_of i (map (pair j) evs) = if decide (i = j) then evs else [].
Proof.
  unfold events_of. induction evs as [| e evs IH].
  - by destruct (decide (i = j)).
  - rewrite map_cons, filter_cons. cbn [fst].
    destruct (decide (j = i)) as [-> | Hne].
    + rewrite map_cons, IH. cbn [snd]. by destruct (decide (i = i)).
    + rewrite IH. destruct (decide (i = j)); [congruence | done].
Qed.

(** One phase, threads in any order.  [I done h] is what is known of the
    heap once the threads of [done] have had their turn; thread [i] ends
    its segment in state [f i] having produced the events [E i]. *)
Lemma run_phase_mixed {A} (size : nat) (g : nat -> thread R A) (f : nat -> tstate R A)
    (E : nat -> list event) (I : list nat -> heap_t -> Prop) :
  (forall (i : nat) done h, (i < size)%nat -> i ∉ done -> I done h ->
     exists h', run_segment (g i) h = Done (f i, h', E i) /\ I (i :: done) h') ->
  forall order done w,
    NoDup order -> (forall i, i ∈ order -> (i < size)%nat /\ i ∉ done) ->
    I done (heap w) ->
    exists w',
      run_phase order (mixed size done f g) w =
        Done (mixed size (reverse order ++ done) f g, w') /\
      I (reverse order ++ done) (heap w') /\
      forall j, events_of j (trace w') =
                events_of j (trace w) ++ (if decide (j ∈ order) then E j else []).
Proof.
  intros Hstep order. induction order as [| i rest IH]; intros done w Hnd Hin HI.
  - exists w. cbn. split; [done |]. split; [done |].
    intros j. rewrite decide_False by apply not_elem_of_nil. by rewrite app_nil_r.
  - apply NoDup_cons in Hnd as [Hirest Hnd].
    destruct (Hin i ltac:(apply elem_of_cons; by left)) as [Hi Hidone].
    cbn [run_phase]. rewrite mixed_lookup, decide_False by done.
    destruct (Hstep i done (heap w) Hi Hidone HI) as (h' & Hrun & HI').
    unfold advance. rewrite Hrun. rewrite mixed_insert by done.
    set (w1 := {| heap := h'; trace := trace w ++ map (pair i) (E i) |}).
    destruct (IH (i :: done) w1 Hnd) as (w' & Hphase & HIw' & Hev).
    { intros j Hj. destruct (Hin j ltac:(apply elem_of_cons; by right)) as [? ?].
      split; [done |]. intros [-> | ?]%elem_of_cons; done. }
    { done. }
    exists w'. rewrite reverse_cons, <- app_assoc. cbn [app].
    split; [done |]. split; [done |].
    intros j. rewrite Hev. unfold w1. cbn [trace].
    rewrite events_of_app, events_of_tagged, <- app_assoc. f_equal.
    destruct (decide (j = i)) as [-> | Hne].
    + rewrite decide_False by done.
      rewrite decide_True by (apply elem_of_cons; by left). by rewrite app_nil_r.
    + cbn [app]. destruct (decide (j ∈ rest)) as [Hr | Hr].
      * rewrite decide_True by (apply elem_of_cons; by right). done.
      * rewrite decide_False; [done |]. intros [-> | ?]%elem_of_cons; done.
Qed.

Lemma mixed_all {A} size done (f : nat -> tstate R A) g :
  (forall i, (i < size)%nat -> i ∈ done) -> mixed size done f g = map f (seq 0 size).
Proof.
  intros Hall. unfold mixed. apply map_ext_in. intros i Hi%in_seq.
  rewrite decide_True; [done |]. apply Hall. lia.
Qed.

Lemma mixed_none {A} size (f : nat -> tstate R A) g :
  mixed size [] f g = map (fun i => Ready (g i)) (seq 0 size).
Proof.
  unfold mixed. apply map_ext. intros i. rewrite decide_False by apply not_elem_of_nil. done.
Qed.

Lemma run_phase_spmd {A} (size : nat) (g : nat -> thread R A) (f : nat -> tstate R A)
    (E : nat -> list event) (I : list nat -> heap_t -> Prop) order w :
  Permutation order (seq 0 size) ->
  I [] (heap w) ->
  (forall (i : nat) done h, (i < size)%nat -> i ∉ done -> I done h ->
     exists h', run_segment (g i) h = Done (f i, h', E i) /\ I (i :: done) h') ->
  exists w' done,
    run_phase order (map (fun i => Ready (g i)) (seq 0 size)) w = Done (map f (seq 0 size), w') /\
    (forall i, (i < size)%nat -> i ∈ done) /\
    I done (heap w') /\
    forall j, events_of j (trace w') =
              events_of j (trace w) ++ (if decide (j < size)%nat then E j else []).
Proof.
  intros Hperm HI Hstep.
  assert (forall i, i ∈ order <-> (i < size)%nat) as Hmem.
  { intros i. rewrite Hperm, elem_of_seq. lia. }
  destruct (run_phase_mixed size g f E I Hstep order [] w) as (w' & Hrun & HI' & Hev).
  - rewrite Hperm. apply NoDup_seq.
  - intros i Hi. split; [by apply Hmem | apply not_elem_of_nil].
  - done.
  - exists w', (reverse order ++ []). rewrite mixed_none in Hrun.
    rewrite mixed_all in Hrun.
    2:{ intros i Hi. rewrite app_nil_r, elem_of_reverse. by apply Hmem. }
    split; [done |]. split.
    { intros i Hi. rewrite app_nil_r, elem_of_reverse. by apply Hmem. }
    split; [done |].
    intros j. rewrite Hev. f_equal.
    destruct (decide (j ∈ order)) as [Hj | Hj].
    + rewrite decide_True by (by apply Hmem). done.
    + rewrite decide_False; [done |]. intros ?. apply Hj. by apply Hmem.
Qed.

Lemma mapM_finished_all {A} (v : nat -> A) (l : list nat) :
  mapM finished (map (fun i => Finished (R:=R) (v i)) l) = Some (map v l).
Proof.
  apply mapM_Some. induction l as [| i l IH]; cbn; constructor; done.
Qed.

Lemma mapM_finished_blocked {A} n (k : nat -> thread R A) (size : nat) :
  (1 <= size)%nat ->
  mapM finished (map (fun i => Blocked (R:=R) n (k i)) (seq 0 size)) = None.
Proof.
  intros Hs. apply mapM_None. destruct size as [| size]; [lia |].
  cbn. by apply Exists_cons_hd.
Qed.

Lemma mapM_released {A} (k : nat -> thread R A) (size : nat) (l : list nat) :
  mapM (released size) (map (fun i => Blocked (Some (Z.of_nat size)) (k i)) l)
  = Some (map (fun i => Ready (k i)) l).
Proof.
  apply mapM_Some. induction l as [| i l IH]; cbn; constructor; [| done].
  cbn. by rewrite decide_True.
Qed.

(** A phase that every thread ends in the callback, with the right count,
    is followed by the next phase. *)
Lemma region_step_blocked {A} fuel sched phase (pool : list (tstate R A)) w
    (size : nat) (k : nat -> thread R A) w' :
  (1 <= size)%nat ->
  run_phase (sched phase) pool w =
    Done (map (fun i => Blocked (Some (Z.of_nat size)) (k i)) (seq 0 size), w') ->
  run_region (S fuel) sched phase pool w =
    run_region fuel sched (S phase) (map (fun i => Ready (k i)) (seq 0 size)) w'.
Proof.
  intros Hs Hrun. cbn [run_region]. rewrite Hrun.
  rewrite mapM_finished_blocked by done.
  rewrite length_map, length_seq, mapM_released. done.
Qed.

(** A phase that every thread ends by returning ends the region. *)
Lemma region_step_finished {A} fuel sched phase (pool : list (tstate R A)) w
    (size : nat) (v : nat -> A) w' :
  run_phase (sched phase) pool w = Done (map (fun i => Finished (v i)) (seq 0 size), w') ->
  run_region (S fuel) sched phase pool w = Returned (map v (seq 0 size)) w'.
Proof.
  intros Hrun. cbn [run_region]. rewrite Hrun. by rewrite mapM_finished_all.
Qed.

End Region.

(** ** The single-writer shared buffer protocol *)
Section SharedBuffer.

Context {R : Type} {DR : Double R} {AL : Allocator}.

Local Abbreviation heap_t := (gmap addr (object R)).

(** [mylib_ThreadControl_malloc] after its first rendezvous, and after the
    second. *)
Definition malloc_read (tcontrol : addr) : thread R (option Z) :=
  bind (load tcontrol F_shared_context) (fun ctx => get ctx F_shared_data).

Definition malloc_write (tcontrol : addr) (num_bytes : Z) : thread R unit :=
  bind (load tcontrol F_shared_context) (fun ctx =>
  bind (malloc (to_size_t num_bytes) (OBuffer (to_size_t num_bytes) ∅)) (fun p =>
  set ctx F_shared_data p)).

Definition malloc_tail (tcontrol : addr) (num_bytes : Z) : thread R (option Z) :=
  bind (load tcontrol F_tid) (fun t =>
  bind (if t =? 0 then malloc_write tcontrol num_bytes else Ret tt) (fun _ =>
  bind (mylib_ThreadControl_sync tcontrol) (fun _ => malloc_read tcontrol))).

Lemma malloc_unfold (tcontrol : addr) (num_bytes : Z) :
  mylib_ThreadControl_malloc tcontrol num_bytes =
    bind (mylib_ThreadControl_sync tcontrol) (fun _ => malloc_tail tcontrol num_bytes).
Proof. reflexivity. Qed.

(** The heap once thread 0 has allocated and published the buffer. *)
Definition published (h : heap_t) (f fn : addr) (d : option addr) (num_bytes : Z)
  : addr * heap_t :=
  let r := malloc_result h (to_size_t num_bytes) (OBuffer (to_size_t num_bytes) ∅) in
  (r.1, <[f := OFactory {| sync := Some fn; sync_data := d; shared_data := Some r.1 |}]> r.2).

Lemma malloc_result_spec (h : heap_t) n init :
  ((malloc_result h n init).1 = NULL /\ (malloc_result h n init).2 = h /\
     malloc_at (dom h) n = None) \/
  ((malloc_result h n init).1 <> NULL /\ h !! (malloc_result h n init).1 = None /\
     (malloc_result h n init).2 = <[(malloc_result h n init).1 := init]> h /\
     malloc_at (dom h) n = Some (malloc_result h n init).1).
Proof.
  unfold malloc_result. destruct (malloc_at (dom h) n) as [a |] eqn:Ha; [right | left; done].
  destruct (malloc_fresh _ _ _ Ha) as [Hnn Hfresh]. cbn.
  split; [done |]. split; [by apply not_elem_of_dom |]. done.
Qed.

Lemma malloc_result_lookup (h : heap_t) n init q o :
  h !! q = Some o -> (malloc_result h n init).2 !! q = Some o.
Proof.
  intros Hq. destruct (malloc_result_spec h n init) as [(_ & -> & _) | (_ & Hfresh & -> & _)].
  - done.
  - rewrite lookup_insert_ne; [done |]. intros <-. congruence.
Qed.

Lemma published_control (h : heap_t) f fn d s nb tc t n f' :
  factory_at h f fn d s -> control_at h tc t n f' ->
  control_at (published h f fn d nb).2 tc t n f'.
Proof.
  intros [_ Hf] Hc. unfold published, control_at. cbn.
  rewrite lookup_insert_ne by (intros <-; unfold control_at in Hc; congruence).
  by apply malloc_result_lookup.
Qed.

Lemma published_factory (h : heap_t) f fn d s nb :
  factory_at h f fn d s ->
  factory_at (published h f fn d nb).2 f fn d (Some (published h f fn d nb).1).
Proof.
  intros [Hfn Hf]. split; [done |]. unfold published. cbn. by rewrite lookup_insert_eq.
Qed.

Lemma seg_malloc_write (h : heap_t) tc nb t n f fn d s :
  control_at h tc t n f -> factory_at h f fn d s ->
  run_segment (malloc_write tc nb) h =
    Done (Finished tt, (published h f fn d nb).2,
          [EvMalloc (to_size_t nb) (published h f fn d nb).1;
           EvSetShared f (published h f fn d nb).1]).
Proof.
  intros Hc Hf. unfold malloc_write.
  rewrite run_segment_bind, (seg_load h tc F_shared_context _ f Hc) by done. seg_simpl.
  rewrite run_segment_bind, seg_malloc. seg_simpl.
  destruct Hf as [Hfn Hf].
  erewrite seg_set; [| by apply malloc_result_lookup | done]. done.
Qed.

Lemma seg_malloc_read (h : heap_t) tc t n f fn d s :
  control_at h tc t n f -> factory_at h f fn d s ->
  run_segment (malloc_read tc) h = Done (Finished s, h, [EvGetShared f s]).
Proof.
  intros Hc [Hfn Hf]. unfold malloc_read.
  rewrite run_segment_bind, (seg_load h tc F_shared_context _ f Hc) by done. seg_simpl.
  by rewrite (seg_get h f F_shared_data _ s Hf).
Qed.

Lemma seg_malloc_tail (h : heap_t) tc nb t n f fn d s :
  control_at h tc t n f -> factory_at h f fn d s ->
  run_segment (malloc_tail tc nb) h =
    Done (Blocked (Some n) (malloc_read tc),
          (if t =? 0 then (published h f fn d nb).2 else h),
          malloc_write_events t f nb (published h f fn d nb).1
            ++ [EvSync (Some t) (Some n) d]).
Proof.
  intros Hc Hf. unfold malloc_tail, malloc_write_events.
  rewrite run_segment_bind, (seg_load h tc F_tid _ t Hc) by done. seg_simpl.
  rewrite run_segment_bind. destruct (t =? 0).
  - rewrite (seg_malloc_write h tc nb t n f fn d s) by done. seg_simpl.
    rewrite run_segment_bind.
    erewrite seg_sync; [| by eapply published_control | by eapply published_factory].
    done.
  - cbn [run_segment]. seg_simpl.
    rewrite run_segment_bind. erewrite seg_sync by done. done.
Qed.

Lemma seg_malloc_routine (h : heap_t) tc nb t n f fn d s :
  control_at h tc t n f -> factory_at h f fn d s ->
  run_segment (mylib_ThreadControl_malloc tc nb) h =
    Done (Blocked (Some n) (malloc_tail tc nb), h, [EvSync (Some t) (Some n) d]).
Proof.
  intros Hc Hf. rewrite malloc_unfold, run_segment_bind.
  erewrite seg_sync by done. done.
Qed.

Lemma region_ok_published (h : heap_t) size tc f fn d s nb :
  region_ok h size tc f fn d s ->
  region_ok (published h f fn d nb).2 size tc f fn d (Some (published h f fn d nb).1).
Proof.
  intros [Hf Hc]. split; [by eapply published_factory |].
  intros i Hi. eapply published_control; [done | by apply Hc].
Qed.

(** The second rendezvous of [mylib_ThreadControl_malloc], in any context:
    thread 0 allocates and publishes the buffer on its way. *)
Lemma region_malloc_tail {A} (W : nat -> thread R (option Z) -> thread R A)
    (K : nat -> option Z -> thread R A)
    (size : nat) (tc : nat -> addr) f fn d s nb fuel sched phase (w : world R) :
  (forall i, context (W i) (K i)) ->
  (1 <= size)%nat ->
  fair size sched ->
  region_ok (heap w) size tc f fn d s ->
  exists w2,
    run_region (S fuel) sched phase
      (map (fun i => Ready (W i (malloc_tail (tc i) nb))) (seq 0 size)) w
    = run_region fuel sched (S phase)
        (map (fun i => Ready (W i (malloc_read (tc i)))) (seq 0 size)) w2 /\
    heap w2 = (published (heap w) f fn d nb).2 /\
    forall j : nat, events_of j (trace w2) =
      events_of j (trace w) ++
      (if decide (j < size)%nat
       then malloc_write_events (Z.of_nat j) f nb (published (heap w) f fn d nb).1
              ++ [EvSync (Some (Z.of_nat j)) (Some (Z.of_nat size)) d]
       else []).
Proof.
  intros HW Hsize Hfair Hok. pose proof Hok as [Hf Hc].
  set (h0 := heap w) in *. set (pub := published h0 f fn d nb).
  destruct (run_phase_spmd size
              (fun i => W i (malloc_tail (tc i) nb))
              (fun i => Blocked (Some (Z.of_nat size)) (W i (malloc_read (tc i))))
              (fun i => malloc_write_events (Z.of_nat i) f nb pub.1
                          ++ [EvSync (Some (Z.of_nat i)) (Some (Z.of_nat size)) d])
              (fun dn h => h = if decide (0%nat ∈ dn) then pub.2 else h0)
              (sched phase) w)
    as (w2 & dn2 & Hrun2 & Hall2 & Hh2 & Hev2); [apply Hfair | | |].
  { by rewrite decide_False by apply not_elem_of_nil. }
  { intros i dn h Hi Hidone ->. rewrite HW.
    destruct (decide (i = 0%nat)) as [-> | Hne].
    - rewrite decide_False by done.
      erewrite seg_malloc_tail by (done || by apply Hc). cbn.
      exists pub.2. split; [done |].
      by rewrite decide_True by (apply elem_of_cons; by left).
    - assert ((Z.of_nat i =? 0) = false) as Hz by (apply Z.eqb_neq; lia).
      destruct (decide (0%nat ∈ dn)) as [H0 | H0].
      + destruct (region_ok_published h0 size tc f fn d s nb Hok) as [Hf' Hc'].
        erewrite seg_malloc_tail by (done || by apply Hc').
        unfold malloc_write_events. rewrite Hz. cbn.
        exists pub.2. split; [done |].
        by rewrite decide_True by (apply elem_of_cons; by right).
      + erewrite seg_malloc_tail by (done || by apply Hc).
        unfold malloc_write_events. rewrite Hz. cbn.
        exists h0. split; [done |].
        rewrite decide_False; [done |]. intros [? | ?]%elem_of_cons; [lia | done]. }
  rewrite (region_step_blocked _ _ _ _ _ _ _ _ Hsize Hrun2).
  exists w2. split; [done |]. split; [| done].
  rewrite Hh2. rewrite decide_True; [done |]. apply Hall2. lia.
Qed.

(** The two rendezvous of [mylib_ThreadControl_malloc], in any context:
    afterwards the buffer is published and every thread is about to read
    the slot. *)
Lemma region_malloc {A} (W : nat -> thread R (option Z) -> thread R A)
    (K : nat -> option Z -> thread R A)
    (size : nat) (tc : nat -> addr) f fn d s nb fuel sched phase (w : world R) :
  (forall i, context (W i) (K i)) ->
  (1 <= size)%nat ->
  fair size sched ->
  region_ok (heap w) size tc f fn d s ->
  exists w2,
    run_region (S (S fuel)) sched phase
      (map (fun i => Ready (W i (mylib_ThreadControl_malloc (tc i) nb))) (seq 0 size)) w
    = run_region fuel sched (S (S phase))
        (map (fun i => Ready (W i (malloc_read (tc i)))) (seq 0 size)) w2 /\
    heap w2 = (published (heap w) f fn d nb).2 /\
    forall j : nat, events_of j (trace w2) =
      events_of j (trace w) ++
      (if decide (j < size)%nat
       then malloc_events (Z.of_nat j) (Z.of_nat size) f d nb (published (heap w) f fn d nb).1
       else []).
Proof.
  intros HW Hsize Hfair Hok. pose proof Hok as [Hf Hc].
  destruct (run_phase_spmd size
              (fun i => W i (mylib_ThreadControl_malloc (tc i) nb))
              (fun i => Blocked (Some (Z.of_nat size)) (W i (malloc_tail (tc i) nb)))
              (fun i => [EvSync (Some (Z.of_nat i)) (Some (Z.of_nat size)) d])
              (fun _ h => h = heap w) (sched phase) w)
    as (w1 & dn1 & Hrun1 & _ & Hh1 & Hev1); [apply Hfair | done | |].
  { intros i dn h Hi _ ->. exists (heap w). split; [| done].
    rewrite HW. erewrite seg_malloc_routine by (done || by apply Hc). done. }
  rewrite (region_step_blocked _ _ _ _ _ _ _ _ Hsize Hrun1).
  rewrite <- Hh1 in Hok.
  destruct (region_malloc_tail W K size tc f fn d s nb fuel sched (S phase) w1
              HW Hsize Hfair Hok) as (w2 & Hrun2 & Hh2 & Hev2).
  rewrite Hh1 in Hh2, Hev2.
  exists w2. split; [done |]. split; [done |].
  intros j. rewrite Hev2, Hev1, <- app_assoc. f_equal.
  destruct (decide (j < size)%nat); [| done]. done.
Qed.

Lemma map_const_replicate {X} (x : X) (l : list nat) :
  map (fun _ => x) l = replicate (length l) x.
Proof. induction l as [| i l IH]; cbn; [done | by rewrite IH]. Qed.

(** The last phase of [mylib_ThreadControl_malloc]: every thread reads the
    slot. *)
Lemma region_malloc_read (size : nat) (tc : nat -> addr) f fn d s fuel sched phase
    (w : world R) :
  fair size sched ->
  region_ok (heap w) size tc f fn d s ->
  exists w',
    run_region (S fuel) sched phase
      (map (fun i => Ready (malloc_read (tc i))) (seq 0 size)) w
    = Returned (replicate size s) w' /\
    heap w' = heap w /\
    forall j : nat, events_of j (trace w') =
      events_of j (trace w) ++ (if decide (j < size)%nat then [EvGetShared f s] else []).
Proof.
  intros Hfair [Hf Hc].
  destruct (run_phase_spmd size (fun i => malloc_read (tc i)) (fun _ => Finished s)
              (fun _ => [EvGetShared f s]) (fun _ h => h = heap w) (sched phase) w)
    as (w' & dn & Hrun & _ & Hh & Hev); [apply Hfair | done | |].
  { intros i dn' h Hi _ ->. exists (heap w). split; [| done].
    by erewrite seg_malloc_read by (done || by apply Hc). }
  exists w'. rewrite (region_step_finished _ _ _ _ _ _ _ _ Hrun).
  rewrite map_const_replicate, length_seq. done.
Qed.

(** [mylib_ThreadControl_malloc] in a region. *)
Lemma region_shared_malloc (size : nat) (tc : nat -> addr) f fn d s num_bytes
    fuel sched (h : heap_t) :
  (1 <= size)%nat ->
  fair size sched ->
  region_ok h size tc f fn d s ->
  exists p w',
    run_region (3 + fuel) sched 0
      (spmd size (fun i => mylib_ThreadControl_malloc (tc i) num_bytes))
      {| heap := h; trace := [] |}
    = Returned (replicate size (Some p)) w' /\
    p = (malloc_result h (to_size_t num_bytes) (OBuffer (to_size_t num_bytes) ∅)).1 /\
    heap w' = (published h f fn d num_bytes).2 /\
    factory_at (heap w') f fn d (Some p) /\
    forall i : nat, (i < size)%nat ->
      events_of i (trace w') =
        [EvSync (Some (Z.of_nat i)) (Some (Z.of_nat size)) d]
        ++ (if decide (i = 0%nat)
            then [EvMalloc (to_size_t num_bytes) p; EvSetShared f p] else [])
        ++ [EvSync (Some (Z.of_nat i)) (Some (Z.of_nat size)) d; EvGetShared f (Some p)].
Proof.
  intros Hsize Hfair Hok.
  set (w := {| heap := h; trace := [] |}).
  destruct (region_malloc (fun _ t => t) (fun _ => Ret) size tc f fn d s num_bytes
              (S fuel) sched 0%nat w (fun _ => context_id) Hsize Hfair Hok)
    as (w2 & Hrun2 & Hh2 & Hev2).
  subst w. cbn [heap trace] in Hh2, Hev2.
  pose proof (region_ok_published h size tc f fn d s num_bytes Hok) as Hok2.
  rewrite <- Hh2 in Hok2.
  destruct (region_malloc_read size tc f fn d _ fuel sched 2%nat w2 Hfair Hok2)
    as (w' & Hrun3 & Hh3 & Hev3).
  exists (published h f fn d num_bytes).1, w'.
  split; [unfold spmd; cbn [Nat.add]; by rewrite Hrun2 |].
  split; [done |]. split; [by rewrite Hh3 |]. split; [rewrite Hh3; apply Hok2 |].
  intros i Hi. rewrite Hev3, Hev2. rewrite !decide_True by done.
  unfold malloc_events, malloc_write_events. cbn [events_of filter map app].
  destruct (decide (i = 0%nat)) as [-> | Hne]; [done |].
  assert ((Z.of_nat i =? 0) = false) as -> by (apply Z.eqb_neq; lia). done.
Qed.

(** C4: in a region of [size] threads, thread [i] holding a control with
    [tid = i] and [tsize = size], [mylib_ThreadControl_malloc] returns in
    every thread, whatever [num_bytes] is.  Each thread performs exactly:
    one call of the callback; then, thread 0 only, one allocation of
    [num_bytes] whose address it stores into the factory's [shared_data];
    then a second call of the callback; then a read of [shared_data].  All
    threads return the same address, the one thread 0 stored. *)
Theorem shared_malloc_protocol (size : nat) (tc : nat -> addr) f fn d s num_bytes
    fuel sched (h : heap_t) :
  (1 <= size)%nat ->
  fair size sched ->
  region_ok h size tc f fn d s ->
  exists p w',
    run_region (3 + fuel) sched 0
      (spmd size (fun i => mylib_ThreadControl_malloc (tc i) num_bytes))
      {| heap := h; trace := [] |}
    = Returned (replicate size (Some p)) w' /\
    p = (malloc_result h (to_size_t num_bytes) (OBuffer (to_size_t num_bytes) ∅)).1 /\
    factory_at (heap w') f fn d (Some p) /\
    forall i : nat, (i < size)%nat ->
      events_of i (trace w') =
        [EvSync (Some (Z.of_nat i)) (Some (Z.of_nat size)) d]
        ++ (if decide (i = 0%nat)
            then [EvMalloc (to_size_t num_bytes) p; EvSetShared f p] else [])
        ++ [EvSync (Some (Z.of_nat i)) (Some (Z.of_nat size)) d; EvGetShared f (Some p)].
Proof.
  intros Hsize Hfair Hok.
  destruct (region_shared_malloc size tc f fn d s num_bytes fuel sched h Hsize Hfair Hok)
    as (p & w' & Hrun & Hp & _ & Hf & Hev).
  by exists p, w'.
Qed.

(** C7, as the code has it: when the memory cannot be obtained no routine
    reports an error.  [mylib_ThreadFactory_create] returns normally with
    the null address stored through [tfactory]; in
    [mylib_ThreadControl_malloc] thread 0 stores the null address into
    [shared_data] and every thread returns normally with the null
    address. *)
Theorem allocation_failure_yields_null :
  (forall h : heap_t,
     malloc_at (dom h) sizeof_ThreadFactory_internal = None ->
     run_solo mylib_ThreadFactory_create h
     = Done (NULL, h, [EvMalloc sizeof_ThreadFactory_internal NULL])) /\
  (forall (size : nat) (tc : nat -> addr) f fn d s num_bytes fuel sched (h : heap_t),
     (1 <= size)%nat ->
     fair size sched ->
     region_ok h size tc f fn d s ->
     malloc_at (dom h) (to_size_t num_bytes) = None ->
     exists w',
       run_region (3 + fuel) sched 0
         (spmd size (fun i => mylib_ThreadControl_malloc (tc i) num_bytes))
         {| heap := h; trace := [] |}
       = Returned (replicate size (Some NULL)) w' /\
       heap w' = <[f := OFactory {| sync := Some fn; sync_data := d;
                                    shared_data := Some NULL |}]> h).
Proof.
  split.
  - intros h Hoom. unfold mylib_ThreadFactory_create.
    rewrite run_solo_segment, seg_malloc. unfold malloc_result. by rewrite Hoom.
  - intros size tc f fn d s num_bytes fuel sched h Hsize Hfair Hok Hoom.
    destruct (region_shared_malloc size tc f fn d s num_bytes fuel sched h Hsize Hfair Hok)
      as (p & w' & Hrun & Hp & Hh & _).
    unfold published, malloc_result in Hp, Hh. rewrite Hoom in Hp, Hh. cbn in Hp, Hh.
    subst p. by exists w'.
Qed.

(** C8, what the code does: the factory that [mylib_ThreadFactory_create]
    hands out is the block as [malloc] returned it.  Nothing has been
    stored into [sync], [sync_data] or [shared_data]: the three fields are
    indeterminate, not null. *)
Theorem create_leaves_fields_indeterminate (h : heap_t) :
  exists p h' evs,
    run_solo mylib_ThreadFactory_create h = Done (p, h', evs) /\
    (p = NULL \/
     h' !! p = Some (OFactory {| sync := None; sync_data := None; shared_data := None |})).
Proof.
  unfold mylib_ThreadFactory_create. rewrite run_solo_segment, seg_malloc.
  eexists _, _, _. split; [done |].
  destruct (malloc_result_spec h sizeof_ThreadFactory_internal (OFactory fresh_factory))
    as [(Hp & _) | (_ & _ & Hh & _)]; [by left | right].
  by rewrite Hh, lookup_insert_eq.
Qed.

(** The heap once the published buffer has been released again. *)
Definition released_heap (h : heap_t) (f fn : addr) (d : option addr) (nb : Z) : heap_t :=
  if decide ((published h f fn d nb).1 = NULL) then (published h f fn d nb).2
  else delete (published h f fn d nb).1 (published h f fn d nb).2.

Lemma published_heap (h : heap_t) f fn d s nb :
  factory_at h f fn d s ->
  ((published h f fn d nb).1 <> NULL ->
     h !! (published h f fn d nb).1 = None /\
     (published h f fn d nb).2 !! (published h f fn d nb).1
       = Some (OBuffer (to_size_t nb) ∅)) /\
  released_heap h f fn d nb =
    <[f := OFactory {| sync := Some fn; sync_data := d;
                       shared_data := Some (published h f fn d nb).1 |}]> h.
Proof.
  intros [_ Hf]. unfold released_heap, published. cbn.
  destruct (malloc_result_spec h (to_size_t nb) (OBuffer (to_size_t nb) ∅))
    as [(Hp & Hh & _) | (Hp & Hfresh & Hh & _)].
  - split; [done |]. rewrite decide_True by done. by rewrite Hh.
  - set (p := (malloc_result h (to_size_t nb) (OBuffer (to_size_t nb) ∅)).1) in *.
    assert (f <> p) as Hne by (intros ->; congruence).
    split.
    + intros _. split; [done |]. rewrite Hh.
      by rewrite lookup_insert_ne, lookup_insert_eq.
    + rewrite decide_False by done. rewrite Hh.
      by rewrite delete_insert_ne, delete_insert_id.
Qed.

Lemma released_heap_ok (h : heap_t) size tc f fn d s nb :
  region_ok h size tc f fn d s ->
  region_ok (released_heap h f fn d nb) size tc f fn d (Some (published h f fn d nb).1).
Proof.
  intros Hok. pose proof Hok as [Hf Hc].
  destruct (published_heap h f fn d s nb Hf) as [_ ->].
  destruct Hf as [Hfn Hf]. split.
  - split; [done |]. by rewrite lookup_insert_eq.
  - intros i Hi. apply control_at_insert_ne; [| by apply Hc].
    intros Heq. specialize (Hc i Hi). unfold control_at in Hc.
    rewrite <- Heq in Hc. congruence.
Qed.

(** C9, as the code has it: [mylib_ThreadControl_free] performs one call of
    the callback and then releases the address on the thread with
    [tid = 0] only; after every thread of a region has performed
    [mylib_ThreadControl_malloc] immediately followed by
    [mylib_ThreadControl_free], the buffer is released (no block is live at
    its address, and the heap is the initial one but for the slot), while
    the factory's [shared_data] slot still holds the address of the
    released buffer. *)
Theorem malloc_free_leaves_stale_slot (size : nat) (tc : nat -> addr) f fn d s num_bytes
    fuel sched (h : heap_t) :
  (1 <= size)%nat ->
  fair size sched ->
  region_ok h size tc f fn d s ->
  exists p w',
    run_region (4 + fuel) sched 0
      (spmd size (fun i => malloc_then_free (tc i) num_bytes))
      {| heap := h; trace := [] |}
    = Returned (replicate size tt) w' /\
    p = (malloc_result h (to_size_t num_bytes) (OBuffer (to_size_t num_bytes) ∅)).1 /\
    heap w' = <[f := OFactory {| sync := Some fn; sync_data := d; shared_data := Some p |}]> h /\
    (p <> NULL -> heap w' !! p = None) /\
    forall i : nat, (i < size)%nat ->
      events_of i (trace w') =
        malloc_events (Z.of_nat i) (Z.of_nat size) f d num_bytes p
        ++ [EvGetShared f (Some p)]
        ++ [EvSync (Some (Z.of_nat i)) (Some (Z.of_nat size)) d]
        ++ (if decide (i = 0%nat) then [EvFree p] else []).
Proof.
  intros Hsize Hfair Hok.
  destruct (region_malloc
              (fun i t => bind t (fun r => bind (definite r) (fun ptr =>
                            mylib_ThreadControl_free (tc i) ptr)))
              (fun i r => bind (definite r) (fun ptr => mylib_ThreadControl_free (tc i) ptr))
              size tc f fn d s num_bytes
              (S (S fuel)) sched 0%nat {| heap := h; trace := [] |}
              (fun _ => context_bind _) Hsize Hfair Hok)
    as (w2 & Hrun2 & Hh2 & Hev2).
  cbn [heap trace] in Hh2, Hev2.
  set (p := (published h f fn d num_bytes).1) in *.
  pose proof (region_ok_published h size tc f fn d s num_bytes Hok) as Hok2.
  rewrite <- Hh2 in Hok2. fold p in Hok2. pose proof Hok2 as [Hf2 Hc2].
  (* every thread reads the slot and enters the rendezvous of free *)
  destruct (run_phase_spmd size
              (fun i => bind (malloc_read (tc i)) (fun r => bind (definite r) (fun ptr =>
                          mylib_ThreadControl_free (tc i) ptr)))
              (fun i => Blocked (Some (Z.of_nat size)) (free_tail (tc i) p))
              (fun i => [EvGetShared f (Some p);
                         EvSync (Some (Z.of_nat i)) (Some (Z.of_nat size)) d])
              (fun _ h' => h' = heap w2) (sched 2%nat) w2)
    as (w3 & dn3 & Hrun3 & _ & Hh3 & Hev3); [apply Hfair | done | |].
  { intros i dn h' Hi _ ->. exists (heap w2). split; [| done].
    rewrite run_segment_bind.
    erewrite seg_malloc_read by (done || by apply Hc2). seg_simpl. cbn [bind definite].
    erewrite seg_free_routine by (done || by apply Hc2). done. }
  (* thread 0 releases *)
  pose proof (released_heap_ok h size tc f fn d s num_bytes Hok) as Hok4.
  fold p in Hok4. pose proof Hok4 as [Hf4 Hc4].
  destruct (published_heap h f fn d s num_bytes (proj1 Hok)) as [Hlive Hrel].
  fold p in Hlive, Hrel.
  destruct (run_phase_spmd size
              (fun i => free_tail (tc i) p)
              (fun _ => Finished tt)
              (fun i => if decide (i = 0%nat) then [EvFree p] else [])
              (fun dn h' => h' = if decide (0%nat ∈ dn)
                                 then released_heap h f fn d num_bytes else heap w2)
              (sched 3%nat) w3)
    as (w4 & dn4 & Hrun4 & Hall4 & Hh4 & Hev4); [apply Hfair | | |].
  { rewrite Hh3. by rewrite decide_False by apply not_elem_of_nil. }
  { intros i dn h' Hi Hidn ->.
    destruct (decide (i = 0%nat)) as [-> | Hne].
    - rewrite decide_False by done.
      erewrite seg_free_tail by (by apply Hc2). cbn [Z.of_nat Z.eqb].
      exists (released_heap h f fn d num_bytes).
      split; [| by rewrite decide_True by (apply elem_of_cons; by left)].
      unfold released_heap. fold p. destruct (decide (p = NULL)) as [-> | Hnn].
      + by rewrite seg_free_null, Hh2.
      + destruct (Hlive Hnn) as [_ Hbuf]. rewrite <- Hh2 in Hbuf.
        by rewrite (seg_free_live _ p _ Hnn Hbuf), Hh2.
    - assert ((Z.of_nat i =? 0) = false) as Hz by (apply Z.eqb_neq; lia).
      destruct (decide (0%nat ∈ dn)) as [H0 | H0].
      + erewrite seg_free_tail by (by apply Hc4). rewrite Hz.
        exists (released_heap h f fn d num_bytes). split; [done |].
        by rewrite decide_True by (apply elem_of_cons; by right).
      + erewrite seg_free_tail by (by apply Hc2). rewrite Hz.
        exists (heap w2). split; [done |].
        rewrite decide_False; [done |]. intros [? | ?]%elem_of_cons; [lia | done]. }
  exists p, w4. split.
  { unfold spmd, malloc_then_free. cbn [Nat.add]. rewrite Hrun2.
    rewrite (region_step_blocked _ _ _ _ _ _ _ _ Hsize Hrun3).
    rewrite (region_step_finished _ _ _ _ _ _ _ _ Hrun4).
    by rewrite map_const_replicate, length_seq. }
  split; [done |].
  assert (heap w4 = released_heap h f fn d num_bytes) as Hfinal.
  { rewrite Hh4. rewrite decide_True; [done |]. apply Hall4. lia. }
  split; [by rewrite Hfinal, Hrel |]. split.
  { intros Hnn. rewrite Hfinal. unfold released_heap. fold p.
    rewrite decide_False by done. apply lookup_delete_eq. }
  intros i Hi. rewrite Hev4, Hev3, Hev2. rewrite !decide_True by done.
  cbn [events_of filter map app].
  rewrite <- !app_assoc. done.
Qed.

End SharedBuffer.

(** ** The partition: range sizes *)

(** C5, as the code has it: without overflow every range has at most
    [ceil_div vsize tsize] elements, the sizes do not increase with [tid],
    and two sizes differ by at most [ceil_div vsize tsize]; they need not be
    within one of each other. *)
Theorem range_sizes_differ_by_at_most_chunk (tsize vsize tid1 tid2 : Z) :
  1 <= tsize -> 0 <= vsize -> no_overflow tsize vsize ->
  0 <= tid1 < tsize -> 0 <= tid2 < tsize ->
  elements_per_thread vsize tsize = ceil_div vsize tsize /\
  range_size tid1 tsize vsize =
    Z.max 0 (Z.min (ceil_div vsize tsize) (vsize - tid1 * ceil_div vsize tsize)) /\
  0 <= range_size tid1 tsize vsize <= ceil_div vsize tsize /\
  (tid1 <= tid2 -> range_size tid2 tsize vsize <= range_size tid1 tsize vsize) /\
  Z.abs (range_size tid1 tsize vsize - range_size tid2 tsize vsize) <= ceil_div vsize tsize.
Proof.
  intros Ht Hv Hno H1 H2.
  destruct (ceil_div_bounds tsize vsize Ht Hv) as (H0 & _).
  rewrite !range_size_exact by assumption.
  split; [by apply elements_per_thread_exact |].
  set (e := ceil_div vsize tsize) in *.
  split; [done |]. split; [lia |]. split; [intros Hle; nia | nia].
Qed.

(** ** Inputs on which the partition overflows *)

(** C2 on an input where [(tid + 1) * elements_per_thread] overflows: with
    two threads and [vsize = INT_MAX] the range of thread 1 is empty and
    index 2^30 belongs to no thread. *)
Theorem partition_gap_on_overflow :
  0 <= 1073741824 < 2147483647 /\
  elements_per_thread 2147483647 2 = 1073741824 /\
  begin_index 1 2 2147483647 = 1073741824 /\
  end_index 1 2 2147483647 = -2147483648 /\
  forall tid, 0 <= tid < 2 -> ~ in_range tid 2 2147483647 1073741824.
Proof.
  split; [lia |]. repeat split; try reflexivity.
  intros tid Htid. assert (tid = 0 \/ tid = 1) as [-> | ->] by lia.
  - unfold in_range. change (begin_index 0 2 2147483647) with 0.
    change (end_index 0 2 2147483647) with 1073741824. lia.
  - unfold in_range. change (begin_index 1 2 2147483647) with 1073741824.
    change (end_index 1 2 2147483647) with (-2147483648). lia.
Qed.

(** ** Loops *)
Section Loops.

Context {R : Type} {DR : Double R} {AL : Allocator}.

Local Abbreviation heap_t := (gmap addr (object R)).

(** A loop whose body, at index [i] in a heap satisfying [P], returns
    having turned the heap into [step h i] with the events [ev i], runs over
    [lo], [lo + 1], ..., [hi - 1] in this order.  The bounds are [int]
    values, so [++i] never overflows. *)
Lemma seg_for_loop (body : Z -> thread R unit) (step : heap_t -> Z -> heap_t)
    (ev : Z -> list event) (P : heap_t -> Prop) (lo0 hi : Z) :
  Int.in_int lo0 -> Int.in_int hi ->
  (forall h i, P h -> lo0 <= i < hi ->
     run_segment (body i) h = Done (Finished tt, step h i, ev i) /\ P (step h i)) ->
  forall (fuel : nat) (lo : Z) (h : heap_t),
    lo0 <= lo -> fuel = Z.to_nat (hi - lo) -> P h ->
    run_segment (for_loop fuel lo hi body) h =
      Done (Finished tt, foldl step h (seqZ lo (hi - lo)), flat_map ev (seqZ lo (hi - lo))) /\
    P (foldl step h (seqZ lo (hi - lo))).
Proof.
  intros Hlo0 Hhi Hbody fuel. induction fuel as [| fuel IH]; intros lo h Hlo Hfuel HP.
  - rewrite seqZ_nil by lia. done.
  - assert (lo < hi) as Hlt by lia.
    cbn [for_loop]. destruct (Z.ltb_spec lo hi) as [_ | ?]; [| lia].
    destruct (Hbody h lo HP ltac:(lia)) as [Hrun HP'].
    unfold mbind, thread_bind. rewrite run_segment_bind, Hrun. seg_simpl.
    assert (Int.add lo 1 = lo + 1) as ->.
    { unfold Int.add. apply wrap_in_int.
      unfold Int.in_int, Int.INT_MIN, Int.INT_MAX in *. lia. }
    destruct (IH (lo + 1) (step h lo)) as [Hrest HPrest]; [lia | lia | done |].
    rewrite Hrest. rewrite (seqZ_cons lo) by lia.
    replace (Z.pred (hi - lo)) with (hi - (lo + 1)) by lia.
    replace (Z.succ lo) with (lo + 1) by lia. done.
Qed.

Lemma seg_for_range (body : Z -> thread R unit) (step : heap_t -> Z -> heap_t)
    (ev : Z -> list event) (P : heap_t -> Prop) (lo hi : Z) (h : heap_t) :
  Int.in_int lo -> Int.in_int hi ->
  (forall h i, P h -> lo <= i < hi ->
     run_segment (body i) h = Done (Finished tt, step h i, ev i) /\ P (step h i)) ->
  P h ->
  run_segment (for_range lo hi body) h =
    Done (Finished tt, foldl step h (seqZ lo (hi - lo)), flat_map ev (seqZ lo (hi - lo))) /\
  P (foldl step h (seqZ lo (hi - lo))).
Proof.
  intros Hlo Hhi Hbody HP. unfold for_range.
  by apply (seg_for_loop body step ev P lo hi Hlo Hhi Hbody); [lia | |].
Qed.

End Loops.

(** ** Arrays of [double] *)
Section Arrays.

Context {R : Type} {DR : Double R} {AL : Allocator}.

Local Abbreviation heap_t := (gmap addr (object R)).

Lemma array_in_bounds (h : heap_t) p vsize n cells i :
  h !! p = Some (OBuffer n cells) -> sizeof_double * vsize <= n -> 0 <= i < vsize ->
  in_bounds n i = true.
Proof.
  intros _ Hn Hi. unfold in_bounds, sizeof_double in *.
  apply andb_true_iff. split; [apply Z.leb_le | apply Z.leb_le]; lia.
Qed.

Lemma seg_load_array (h : heap_t) p vsize i x :
  array_at h p vsize -> 0 <= i < vsize -> cell h p i = Some x ->
  run_segment (load_double p i) h = Done (Finished x, h, [EvRead p i]).
Proof.
  intros (n & cells & Hp & Hn) Hi Hc. unfold cell in Hc. rewrite Hp in Hc.
  eapply seg_load_double; [done | by eapply array_in_bounds | done].
Qed.

Lemma seg_store_array (h : heap_t) p vsize i x :
  array_at h p vsize -> 0 <= i < vsize ->
  run_segment (store_double p i x) h = Done (Finished tt, store_cell h p i x, [EvWrite p i]).
Proof.
  intros (n & cells & Hp & Hn) Hi. unfold store_cell. rewrite Hp.
  eapply seg_store_double; [done | by eapply array_in_bounds].
Qed.

Lemma store_cell_lookup_ne (h : heap_t) p i x q :
  q <> p -> store_cell h p i x !! q = h !! q.
Proof.
  intros Hne. unfold store_cell. destruct (h !! p) as [[| | n cells] |]; try done.
  by rewrite lookup_insert_ne.
Qed.

Lemma store_cell_cell (h : heap_t) p i x q j :
  array_at h p (i + 1) ->
  cell (store_cell h p i x) q j = if decide (q = p /\ j = i) then Some x else cell h q j.
Proof.
  intros (n & cells & Hp & _). unfold cell, store_cell. rewrite Hp.
  destruct (decide (q = p)) as [-> | Hne].
  - rewrite lookup_insert_eq, Hp. destruct (decide (j = i)) as [-> | Hji].
    + rewrite decide_True by done. by rewrite lookup_insert_eq.
    + rewrite decide_False by (intros [_ ?]; done). by rewrite lookup_insert_ne.
  - rewrite lookup_insert_ne by done. rewrite decide_False by (intros [? _]; done). done.
Qed.

Lemma store_cell_array (h : heap_t) p i x q vsize :
  array_at h q vsize -> array_at (store_cell h p i x) q vsize.
Proof.
  intros (n & cells & Hq & Hn). unfold store_cell.
  destruct (h !! p) as [[| | n' cells'] |] eqn:Hp; try by exists n, cells.
  destruct (decide (q = p)) as [-> | Hne].
  - rewrite Hq in Hp. injection Hp as <- <-.
    eexists _, _. by rewrite lookup_insert_eq.
  - exists n, cells. by rewrite lookup_insert_ne.
Qed.

Lemma store_cell_control (h : heap_t) p i x tc t n f :
  control_at h tc t n f -> control_at (store_cell h p i x) tc t n f.
Proof.
  intros Hc. unfold control_at in *. unfold store_cell.
  destruct (h !! p) as [[| | n' cells'] |] eqn:Hp; try done.
  rewrite lookup_insert_ne; [done |]. intros ->. congruence.
Qed.

End Arrays.

(** ** [mylib_vector_add] *)
Section VectorAdd.

Context {R : Type} {DR : Double R} {AL : Allocator}.

Local Abbreviation heap_t := (gmap addr (object R)).

Variables (a b : Z -> R) (v1 v2 vresult : addr) (vsize : Z).

(** One iteration: [vresult[i] = v1[i] + v2[i]]. *)
Definition add_step (h : heap_t) (i : Z) : heap_t :=
  store_cell h vresult i (dadd (a i) (b i)).

Definition add_events (i : Z) : list event :=
  [EvRead v1 i; EvRead v2 i; EvWrite vresult i].

Lemma array_at_le (h : heap_t) p n m : m <= n -> array_at h p n -> array_at h p m.
Proof.
  intros Hle (nb & cells & Hp & Hn). exists nb, cells. split; [done |].
  unfold sizeof_double in *. lia.
Qed.

Lemma holds_store_ne (h : heap_t) p n (c : Z -> R) q i x :
  q <> p -> array_at h q (i + 1) -> holds h p n c -> holds (store_cell h q i x) p n c.
Proof.
  intros Hne Hq [Harr Hcells]. split; [by apply store_cell_array |].
  intros j Hj. rewrite store_cell_cell by done.
  rewrite decide_False by (intros [? _]; done). by apply Hcells.
Qed.

Definition add_inv (h : heap_t) : Prop :=
  holds h v1 vsize a /\ holds h v2 vsize b /\ array_at h vresult vsize.

Lemma add_step_inv (h : heap_t) i :
  vresult <> v1 -> vresult <> v2 -> 0 <= i < vsize -> add_inv h -> add_inv (add_step h i).
Proof.
  intros Hn1 Hn2 Hi (H1 & H2 & Hr). unfold add_step.
  assert (array_at h vresult (i + 1)) by (eapply array_at_le; [| done]; lia).
  split; [by apply holds_store_ne |]. split; [by apply holds_store_ne |].
  by apply store_cell_array.
Qed.

Lemma add_fold_inv (l : list Z) (h : heap_t) :
  vresult <> v1 -> vresult <> v2 -> (forall i, i ∈ l -> 0 <= i < vsize) ->
  add_inv h -> add_inv (foldl add_step h l).
Proof.
  intros Hn1 Hn2. revert h. induction l as [| i l IH]; intros h Hl Hinv; [done |].
  cbn [foldl]. apply IH.
  - intros j Hj. apply Hl. apply elem_of_cons. by right.
  - apply add_step_inv; try done. apply Hl. apply elem_of_cons. by left.
Qed.

Lemma add_fold_lookup_ne (l : list Z) (h : heap_t) q :
  q <> vresult -> foldl add_step h l !! q = h !! q.
Proof.
  intros Hne. revert h. induction l as [| i l IH]; intros h; [done |].
  cbn [foldl]. rewrite IH. unfold add_step. by apply store_cell_lookup_ne.
Qed.

Lemma add_fold_control (l : list Z) (h : heap_t) tc t n f :
  control_at h tc t n f -> control_at (foldl add_step h l) tc t n f.
Proof.
  revert h. induction l as [| i l IH]; intros h Hc; [done |].
  cbn [foldl]. apply IH. unfold add_step. by apply store_cell_control.
Qed.

Lemma add_fold_cell (l : list Z) (h : heap_t) j :
  array_at h vresult vsize -> (forall i, i ∈ l -> 0 <= i < vsize) ->
  cell (foldl add_step h l) vresult j =
    if decide (j ∈ l) then Some (dadd (a j) (b j)) else cell h vresult j.
Proof.
  revert h. induction l as [| i l IH]; intros h Harr Hl.
  - cbn. by rewrite decide_False by apply not_elem_of_nil.
  - cbn [foldl].
    assert (0 <= i < vsize) as Hi by (apply Hl, elem_of_cons; by left).
    assert (array_at h vresult (i + 1)) by (eapply array_at_le; [| done]; lia).
    rewrite IH.
    2:{ unfold add_step. by apply store_cell_array. }
    2:{ intros k Hk. apply Hl, elem_of_cons. by right. }
    destruct (decide (j ∈ l)) as [Hjl | Hjl].
    + rewrite decide_True by (apply elem_of_cons; by right). done.
    + unfold add_step. rewrite store_cell_cell by done.
      destruct (decide (j = i)) as [-> | Hji].
      * rewrite decide_True by done. rewrite decide_True by (apply elem_of_cons; by left). done.
      * rewrite decide_False by (intros [_ ?]; done).
        rewrite decide_False; [done |]. intros [? | ?]%elem_of_cons; done.
Qed.

Lemma elem_of_range (t n i : Z) : i ∈ range vsize t n <-> in_range t n vsize i.
Proof. unfold range, in_range. rewrite elem_of_seqZ. lia. Qed.

(** One thread: it visits its range in increasing order and returns. *)
Lemma seg_vector_add (h : heap_t) tc t n f :
  control_at h tc t n f -> add_inv h ->
  vresult <> v1 -> vresult <> v2 -> Int.in_int vsize ->
  (forall i, in_range t n vsize i -> 0 <= i < vsize) ->
  run_segment (mylib_vector_add tc v1 v2 vresult vsize) h =
    Done (Finished tt, foldl add_step h (range vsize t n), flat_map add_events (range vsize t n)).
Proof.
  intros Hc Hinv Hn1 Hn2 Hv Hrange. unfold mylib_vector_add, mbind, thread_bind.
  rewrite run_segment_bind, (seg_load h tc F_tsize _ n Hc) by done. seg_simpl.
  rewrite run_segment_bind, (seg_load h tc F_tid _ t Hc) by done. seg_simpl.
  destruct (index_ints t n vsize Hv) as [Hlo Hhi].
  apply (seg_for_range _ add_step add_events add_inv); try done.
  intros h' i (H1 & H2 & Hr) Hi. split; [| by apply add_step_inv; auto].
  assert (0 <= i < vsize) as Hiv by (by apply Hrange).
  rewrite run_segment_bind.
  erewrite seg_load_array; [| apply H1 | done | by apply H1]. seg_simpl.
  rewrite run_segment_bind.
  erewrite seg_load_array; [| apply H2 | done | by apply H2]. seg_simpl.
  erewrite seg_store_array by done. done.
Qed.

(** What is known of the heap when the threads of [dn] have run. *)
Definition add_region_inv (size : nat) (h0 : heap_t) (dn : list nat) (h : heap_t) : Prop :=
  add_inv h /\
  (forall q, q <> vresult -> h !! q = h0 !! q) /\
  (forall (t : nat) i, t ∈ dn -> in_range (Z.of_nat t) (Z.of_nat size) vsize i ->
     cell h vresult i = Some (dadd (a i) (b i))) /\
  (forall i, (forall t : nat, t ∈ dn -> ~ in_range (Z.of_nat t) (Z.of_nat size) vsize i) ->
     cell h vresult i = cell h0 vresult i).

(** The whole region, for any partition that stays inside the arrays: every
    thread returns, the cells of [vresult] in the range of some thread hold
    the sums, and nothing else changes. *)
Lemma region_vector_add (size : nat) (tc : nat -> addr) (fa : nat -> addr)
    fuel sched (h : heap_t) :
  fair size sched ->
  (forall i : nat, (i < size)%nat ->
     control_at h (tc i) (Z.of_nat i) (Z.of_nat size) (fa i)) ->
  add_inv h -> vresult <> v1 -> vresult <> v2 -> Int.in_int vsize ->
  (forall (t : nat) i, (t < size)%nat ->
     in_range (Z.of_nat t) (Z.of_nat size) vsize i -> 0 <= i < vsize) ->
  exists w',
    run_region (S fuel) sched 0
      (spmd size (fun i => mylib_vector_add (tc i) v1 v2 vresult vsize))
      {| heap := h; trace := [] |}
    = Returned (replicate size tt) w' /\
    (forall q, q <> vresult -> heap w' !! q = h !! q) /\
    (forall (t : nat) i, (t < size)%nat ->
       in_range (Z.of_nat t) (Z.of_nat size) vsize i ->
       cell (heap w') vresult i = Some (dadd (a i) (b i))) /\
    (forall i, (forall t : nat, (t < size)%nat ->
                  ~ in_range (Z.of_nat t) (Z.of_nat size) vsize i) ->
       cell (heap w') vresult i = cell h vresult i) /\
    (forall t : nat, (t < size)%nat ->
       events_of t (trace w') = flat_map add_events (range vsize (Z.of_nat t) (Z.of_nat size))).
Proof.
  intros Hfair Hc Hinv Hn1 Hn2 Hv Hin.
  destruct (run_phase_mixed size
              (fun i => mylib_vector_add (tc i) v1 v2 vresult vsize)
              (fun _ => Finished tt)
              (fun t => flat_map add_events (range vsize (Z.of_nat t) (Z.of_nat size)))
              (add_region_inv size h)) with
    (order := sched 0%nat) (done := @nil nat) (w := {| heap := h; trace := [] |})
    as (w' & Hrun & (Hinv' & Hframe & Hcov & Hunc) & Hev).
  { intros t dn h' Ht Htdn (Hinv' & Hframe & Hcov & Hunc).
    assert (control_at h' (tc t) (Z.of_nat t) (Z.of_nat size) (fa t)) as Hc'.
    { unfold control_at. rewrite Hframe; [by apply Hc |].
      intros Heq. destruct Hinv as (_ & _ & (n & cells & Hr & _)).
      specialize (Hc t Ht). unfold control_at in Hc. rewrite Heq in Hc. congruence. }
    exists (foldl add_step h' (range vsize (Z.of_nat t) (Z.of_nat size))).
    split.
    { apply (seg_vector_add h' (tc t) (Z.of_nat t) (Z.of_nat size) (fa t)); try done.
      intros i. by apply Hin. }
    assert (forall i, i ∈ range vsize (Z.of_nat t) (Z.of_nat size) -> 0 <= i < vsize) as Hl.
    { intros i Hi%elem_of_range. by eapply Hin. }
    split; [by apply add_fold_inv |]. split.
    { intros q Hq. rewrite add_fold_lookup_ne by done. by apply Hframe. }
    split.
    - intros t0 i Ht0 Hr0. rewrite add_fold_cell by (done || apply Hinv').
      destruct (decide (i ∈ range vsize (Z.of_nat t) (Z.of_nat size))) as [Hi | Hi]; [done |].
      apply elem_of_cons in Ht0 as [-> | Ht0]; [| by eapply Hcov].
      exfalso. apply Hi. by apply elem_of_range.
    - intros i Hno. rewrite add_fold_cell by (done || apply Hinv').
      rewrite decide_False.
      + apply Hunc. intros t0 Ht0. apply Hno, elem_of_cons. by right.
      + intros Hi%elem_of_range. eapply Hno; [| done]. apply elem_of_cons. by left. }
  { rewrite (Hfair 0%nat). apply NoDup_seq. }
  { intros i Hi. rewrite (Hfair 0%nat), elem_of_seq in Hi.
    split; [lia | apply not_elem_of_nil]. }
  { split; [done |]. split; [done |]. split.
    - intros t i Ht%elem_of_nil. done.
    - done. }
  assert (forall t : nat, t ∈ reverse (sched 0%nat) ++ [] <-> (t < size)%nat) as Hmem.
  { intros t. rewrite app_nil_r, elem_of_reverse, (Hfair 0%nat), elem_of_seq. lia. }
  rewrite mixed_none, mixed_all in Hrun by (intros t Ht; by apply Hmem).
  exists w'. rewrite (region_step_finished _ _ _ _ _ _ _ _ Hrun).
  rewrite map_const_replicate, length_seq.
  split; [done |]. split; [done |]. split; [| split].
  - intros t i Ht Hr. eapply Hcov; [| done]. by apply Hmem.
  - intros i Hno. apply Hunc. intros t Ht%Hmem. by apply Hno.
  - intros t Ht. rewrite Hev. cbn [trace events_of filter map app].
    rewrite decide_True; [done |]. rewrite (Hfair 0%nat), elem_of_seq. lia.
Qed.

End VectorAdd.

(** ** [mylib_vector_add] in a region *)
Section VectorAddRegion.

Context {R : Type} {DR : Double R} {AL : Allocator}.

Local Abbreviation heap_t := (gmap addr (object R)).

Lemma fill_lookup (x : Z -> R) (n i : Z) :
  fill x n !! i = if decide (0 <= i < n) then Some (x i) else None.
Proof.
  unfold fill. destruct (decide (0 <= i < n)) as [Hi | Hi].
  - apply elem_of_list_to_map.
    + rewrite <- list_fmap_compose. cbn. rewrite list_fmap_id. apply NoDup_seqZ.
    + apply list_elem_of_fmap. exists i. split; [done |]. apply elem_of_seqZ. lia.
  - apply not_elem_of_list_to_map. rewrite <- list_fmap_compose. cbn.
    rewrite list_fmap_id, elem_of_seqZ. lia.
Qed.

(** Without overflow, after every thread of the region has run
    [mylib_vector_add], [vresult[i] = v1[i] + v2[i]] for every
    [i] in [0, vsize), and nothing but [vresult] has changed. *)
Lemma vector_add_correct (a b : Z -> R) (v1 v2 vresult : addr) (vsize : Z)
    (size : nat) (tc fa : nat -> addr) fuel sched (h : heap_t) :
  (1 <= size)%nat -> 0 <= vsize -> no_overflow (Z.of_nat size) vsize ->
  fair size sched ->
  (forall i : nat, (i < size)%nat ->
     control_at h (tc i) (Z.of_nat i) (Z.of_nat size) (fa i)) ->
  holds h v1 vsize a -> holds h v2 vsize b -> array_at h vresult vsize ->
  vresult <> v1 -> vresult <> v2 ->
  exists w',
    run_region (S fuel) sched 0
      (spmd size (fun i => mylib_vector_add (tc i) v1 v2 vresult vsize))
      {| heap := h; trace := [] |}
    = Returned (replicate size tt) w' /\
    (forall i, 0 <= i < vsize -> cell (heap w') vresult i = Some (dadd (a i) (b i))) /\
    (forall q, q <> vresult -> heap w' !! q = h !! q).
Proof.
  intros Hsize Hv Hno Hfair Hc H1 H2 Hr Hn1 Hn2.
  destruct (no_overflow_ints (Z.of_nat size) vsize ltac:(lia) Hv Hno) as [_ Hvi].
  destruct (region_vector_add a b v1 v2 vresult vsize size tc fa fuel sched h)
    as (w' & Hrun & Hframe & Hcov & _ & _); try done.
  { intros t i Ht Hi. eapply (range_inside (Z.of_nat t) (Z.of_nat size)); try done; lia. }
  exists w'. split; [done |]. split; [| done].
  intros i Hi.
  destruct (partition_exact (Z.of_nat size) vsize i ltac:(lia) Hv Hno Hi)
    as (t & [Ht Hin] & _).
  apply (Hcov (Z.to_nat t)); [lia |]. by rewrite Z2Nat.id by lia.
Qed.

End VectorAddRegion.

(** ** [mylib_vector_dot] *)
Section VectorDot.

Context {R : Type} {DR : Double R} {AL : Allocator}.

Local Abbreviation heap_t := (gmap addr (object R)).

Variables (a b : Z -> R) (v1 v2 dotresult : addr) (vsize : Z).

(** *** The routine, rendezvous by rendezvous *)

Definition dot_finish (tcontrol thread_results : addr) : thread R unit :=
  bind (mylib_ThreadControl_sync tcontrol) (fun _ =>
  mylib_ThreadControl_free tcontrol thread_results).

Definition dot_sum_up (tcontrol thread_results : addr) : thread R unit :=
  bind (load tcontrol F_tsize) (fun n =>
  bind (for_range 1 n (fun i =>
          bind (load_double thread_results 0) (fun acc =>
          bind (load_double thread_results i) (fun x =>
          store_double thread_results 0 (dadd acc x))))) (fun _ =>
  bind (load_double thread_results 0) (fun x =>
  store_double dotresult 0 x))).

Definition dot_reduce (tcontrol thread_results : addr) : thread R unit :=
  bind (load tcontrol F_tid) (fun t =>
  bind (if t =? 0 then dot_sum_up tcontrol thread_results else Ret tt) (fun _ =>
  dot_finish tcontrol thread_results)).

Definition dot_loop_body (tcontrol thread_results : addr) (i : Z) : thread R unit :=
  bind (load tcontrol F_tid) (fun t =>
  bind (load_double thread_results t) (fun acc =>
  bind (load_double v1 i) (fun x =>
  bind (load_double v2 i) (fun y =>
  store_double thread_results t (dadd acc (dmul x y)))))).

Definition dot_accumulate (tcontrol thread_results : addr) : thread R unit :=
  bind (load tcontrol F_tid) (fun t =>
  bind (store_double thread_results t dzero) (fun _ =>
  bind (load tcontrol F_tsize) (fun n =>
  bind (load tcontrol F_tid) (fun t =>
  bind (for_range (begin_index t n vsize) (end_index t n vsize)
          (dot_loop_body tcontrol thread_results)) (fun _ =>
  bind (mylib_ThreadControl_sync tcontrol) (fun _ =>
  dot_reduce tcontrol thread_results)))))).

Definition dot_body (tcontrol : addr) (r : option Z) : thread R unit :=
  bind (definite r) (fun thread_results => dot_accumulate tcontrol thread_results).

Lemma dot_unfold (tcontrol : addr) :
  mylib_vector_dot tcontrol v1 v2 dotresult vsize =
    bind (load tcontrol F_tsize) (fun n =>
    bind (mylib_ThreadControl_malloc tcontrol (scratch_bytes n)) (dot_body tcontrol)).
Proof. reflexivity. Qed.

(** *** Slots of the scratch buffer *)

Lemma store_cell_id (h : heap_t) p i x : cell h p i = Some x -> store_cell h p i x = h.
Proof.
  unfold cell, store_cell. destruct (h !! p) as [[| | n cells] |] eqn:Hp; try done.
  intros Hc. by rewrite (insert_id cells), (insert_id h).
Qed.

Lemma store_cell_twice (h : heap_t) p i x y :
  store_cell (store_cell h p i x) p i y = store_cell h p i y.
Proof.
  unfold store_cell. destruct (h !! p) as [[| | n cells] |] eqn:Hp; rewrite ?Hp; try done.
  by rewrite lookup_insert_eq, !insert_insert_eq.
Qed.

Lemma store_cell_holds_ne (h : heap_t) p n (c : Z -> R) q i x :
  q <> p -> holds h p n c -> holds (store_cell h q i x) p n c.
Proof.
  intros Hne [Harr Hcells]. split; [by apply store_cell_array |].
  intros j Hj. unfold cell. rewrite store_cell_lookup_ne by done. by apply Hcells.
Qed.

Lemma store_cell_factory (h : heap_t) p i x f fn d s :
  factory_at h f fn d s -> factory_at (store_cell h p i x) f fn d s.
Proof.
  intros [Hfn Hf]. split; [done |]. unfold store_cell.
  destruct (h !! p) as [[| | n' cells'] |] eqn:Hp; try done.
  rewrite lookup_insert_ne; [done |]. intros ->. congruence.
Qed.

(** *** The accumulation loop *)

Definition acc_step (thread_results t : Z) (h : heap_t) (i : Z) : heap_t :=
  match cell h thread_results t with
  | Some acc => store_cell h thread_results t (dadd acc (dmul (a i) (b i)))
  | None => h
  end.

Definition acc_events (thread_results t i : Z) : list event :=
  [EvRead thread_results t; EvRead v1 i; EvRead v2 i; EvWrite thread_results t].

Lemma acc_fold (tr t : Z) (l : list Z) (h : heap_t) acc0 :
  array_at h tr (t + 1) -> cell h tr t = Some acc0 ->
  foldl (acc_step tr t) h l = store_cell h tr t (dot_fold a b l acc0).
Proof.
  revert h acc0. induction l as [| i l IH]; intros h acc0 Harr Hc.
  - cbn. by rewrite store_cell_id.
  - cbn [foldl]. unfold acc_step at 2. rewrite Hc.
    rewrite (IH _ (dadd acc0 (dmul (a i) (b i)))).
    + by rewrite store_cell_twice.
    + by apply store_cell_array.
    + rewrite store_cell_cell by done. by rewrite decide_True.
Qed.

(** The facts the loop relies on and keeps. *)
Definition acc_inv (tc tr t n f : Z) (h : heap_t) : Prop :=
  control_at h tc t n f /\ holds h v1 vsize a /\ holds h v2 vsize b /\
  0 <= t /\ array_at h tr (t + 1) /\ is_Some (cell h tr t).

Lemma seg_dot_loop_body (tc tr t n f : Z) (h : heap_t) (i : Z) :
  tr <> v1 -> tr <> v2 -> 0 <= i < vsize ->
  acc_inv tc tr t n f h ->
  run_segment (dot_loop_body tc tr i) h =
    Done (Finished tt, acc_step tr t h i, acc_events tr t i) /\
  acc_inv tc tr t n f (acc_step tr t h i).
Proof.
  intros Hn1 Hn2 Hi (Hc & H1 & H2 & Ht & Harr & [acc Hacc]).
  unfold acc_step. rewrite Hacc. split.
  - unfold dot_loop_body.
    rewrite run_segment_bind, (seg_load h tc F_tid _ t Hc) by done. seg_simpl.
    rewrite run_segment_bind.
    erewrite seg_load_array; [| done | lia | done]. seg_simpl.
    rewrite run_segment_bind.
    erewrite seg_load_array; [| apply H1 | done | by apply H1]. seg_simpl.
    rewrite run_segment_bind.
    erewrite seg_load_array; [| apply H2 | done | by apply H2]. seg_simpl.
    erewrite seg_store_array; [| done | lia]. done.
  - split; [by apply store_cell_control |].
    split; [by apply store_cell_holds_ne |]. split; [by apply store_cell_holds_ne |].
    split; [done |]. split; [by apply store_cell_array |].
    rewrite store_cell_cell by done. by rewrite decide_True.
Qed.

(** The events of a thread between the second rendezvous of the
    allocation and the rendezvous after its loop. *)
Definition acc_phase_events (f p t n : Z) (d : option addr) : list event :=
  [EvGetShared f (Some p); EvWrite p t]
  ++ flat_map (acc_events p t) (range vsize t n)
  ++ [EvSync (Some t) (Some n) d].

Lemma seg_dot_accumulate (tc tr t n f fn : Z) d s (h : heap_t) :
  tr <> v1 -> tr <> v2 -> Int.in_int vsize ->
  (forall i, in_range t n vsize i -> 0 <= i < vsize) ->
  control_at h tc t n f -> factory_at h f fn d s ->
  holds h v1 vsize a -> holds h v2 vsize b -> 0 <= t -> array_at h tr (t + 1) ->
  run_segment (dot_accumulate tc tr) h =
    Done (Blocked (Some n) (dot_reduce tc tr),
          store_cell h tr t (partial a b vsize n t),
          [EvWrite tr t] ++ flat_map (acc_events tr t) (range vsize t n)
            ++ [EvSync (Some t) (Some n) d]).
Proof.
  intros Hn1 Hn2 Hv Hrange Hc Hf H1 H2 Ht Harr. unfold dot_accumulate.
  rewrite run_segment_bind, (seg_load h tc F_tid _ t Hc) by done. seg_simpl.
  rewrite run_segment_bind. erewrite seg_store_array; [| done | lia]. seg_simpl.
  set (h1 := store_cell h tr t dzero).
  assert (acc_inv tc tr t n f h1) as Hinv.
  { split; [by apply store_cell_control |].
    split; [by apply store_cell_holds_ne |]. split; [by apply store_cell_holds_ne |].
    split; [done |]. split; [by apply store_cell_array |].
    unfold h1. rewrite store_cell_cell by done. by rewrite decide_True. }
  pose proof Hinv as (Hc1 & _).
  rewrite run_segment_bind, (seg_load h1 tc F_tsize _ n Hc1) by done. seg_simpl.
  rewrite run_segment_bind, (seg_load h1 tc F_tid _ t Hc1) by done. seg_simpl.
  destruct (index_ints t n vsize Hv) as [Hlo Hhi].
  destruct (seg_for_range (dot_loop_body tc tr) (acc_step tr t) (acc_events tr t)
              (acc_inv tc tr t n f) (begin_index t n vsize) (end_index t n vsize) h1)
    as [Hloop Hinv2]; try done.
  { intros h' i Hinv' Hi. apply seg_dot_loop_body; try done. by apply Hrange. }
  change (seqZ _ _) with (range vsize t n) in Hloop, Hinv2.
  assert (array_at h1 tr (t + 1)) as Harr1 by (by apply store_cell_array).
  assert (cell h1 tr t = Some dzero) as Hcell1.
  { unfold h1. rewrite store_cell_cell by done. by rewrite decide_True. }
  rewrite (acc_fold tr t _ h1 dzero Harr1 Hcell1) in Hloop, Hinv2.
  subst h1. rewrite store_cell_twice in Hloop, Hinv2.
  fold (partial a b vsize n t) in Hloop, Hinv2.
  rewrite run_segment_bind, Hloop. seg_simpl.
  destruct Hinv2 as (Hc2 & _).
  rewrite run_segment_bind.
  erewrite seg_sync; [| done | by apply store_cell_factory]. done.
Qed.

(** *** The reduction by thread 0 *)

Definition red_step (tr : Z) (h : heap_t) (i : Z) : heap_t :=
  match cell h tr 0, cell h tr i with
  | Some acc, Some x => store_cell h tr 0 (dadd acc x)
  | _, _ => h
  end.

Definition red_events (tr i : Z) : list event :=
  [EvRead tr 0; EvRead tr i; EvWrite tr 0].

(** Slots 1, ..., [n - 1] hold the partial sums and slot 0 holds something. *)
Definition red_inv (tr n : Z) (h : heap_t) : Prop :=
  array_at h tr n /\ is_Some (cell h tr 0) /\
  forall i, 1 <= i < n -> cell h tr i = Some (partial a b vsize n i).

Lemma red_step_spec (tr n : Z) (h : heap_t) (i : Z) acc :
  1 <= i < n -> red_inv tr n h -> cell h tr 0 = Some acc ->
  red_step tr h i = store_cell h tr 0 (dadd acc (partial a b vsize n i)) /\
  red_inv tr n (store_cell h tr 0 (dadd acc (partial a b vsize n i))).
Proof.
  intros Hi (Harr & _ & Hcells) Hacc. unfold red_step. rewrite Hacc, (Hcells i Hi).
  split; [done |].
  assert (array_at h tr (0 + 1)) by (eapply array_at_le; [| done]; lia).
  split; [by apply store_cell_array |]. split.
  - rewrite store_cell_cell by done. by rewrite decide_True.
  - intros j Hj. rewrite store_cell_cell by done.
    rewrite decide_False by (intros [_ ?]; lia). by apply Hcells.
Qed.

Lemma red_fold (tr n : Z) (l : list Z) (h : heap_t) acc :
  (forall i, i ∈ l -> 1 <= i < n) -> red_inv tr n h -> cell h tr 0 = Some acc ->
  foldl (red_step tr) h l =
    store_cell h tr 0 (foldl (fun acc t => dadd acc (partial a b vsize n t)) acc l).
Proof.
  revert h acc. induction l as [| i l IH]; intros h acc Hl Hinv Hacc.
  - cbn. by rewrite store_cell_id.
  - cbn [foldl].
    assert (1 <= i < n) as Hi by (apply Hl, elem_of_cons; by left).
    destruct (red_step_spec tr n h i acc) as [-> Hinv']; try done.
    assert (array_at h tr (0 + 1)) by (eapply array_at_le; [| apply Hinv]; lia).
    rewrite (IH _ (dadd acc (partial a b vsize n i))); try done.
    + by rewrite store_cell_twice.
    + intros j Hj. apply Hl, elem_of_cons. by right.
    + rewrite store_cell_cell by done. by rewrite decide_True.
Qed.

Definition sum_up_events (tr n : Z) : list event :=
  flat_map (red_events tr) (seqZ 1 (n - 1)) ++ [EvRead tr 0; EvWrite dotresult 0].

Definition summed_up (tr n : Z) (h : heap_t) : heap_t :=
  store_cell (store_cell h tr 0 (dot_total a b vsize n)) dotresult 0 (dot_total a b vsize n).

Lemma seg_dot_sum_up (tc tr t n f : Z) (h : heap_t) :
  Int.in_int n -> 1 <= n ->
  control_at h tc t n f ->
  array_at h tr n -> array_at h dotresult 1 ->
  (forall i, 0 <= i < n -> cell h tr i = Some (partial a b vsize n i)) ->
  run_segment (dot_sum_up tc tr) h =
    Done (Finished tt, summed_up tr n h, sum_up_events tr n).
Proof.
  intros Hn Hn1 Hc Harr Hdr Hcells. unfold dot_sum_up.
  rewrite run_segment_bind, (seg_load h tc F_tsize _ n Hc) by done. seg_simpl.
  assert (red_inv tr n h) as Hinv.
  { split; [done |]. split; [rewrite Hcells by lia; done |]. intros i Hi. apply Hcells. lia. }
  destruct (seg_for_range
              (fun i => bind (load_double tr 0) (fun acc =>
                        bind (load_double tr i) (fun x =>
                        store_double tr 0 (dadd acc x))))
              (red_step tr) (red_events tr) (red_inv tr n) 1 n h)
    as [Hloop Hinv2]; try done.
  { intros h' i Hinv' Hi. pose proof Hinv' as (Harr' & [acc Hacc] & Hcells').
    destruct (red_step_spec tr n h' i acc Hi Hinv' Hacc) as [-> Hinv''].
    split; [| done].
    rewrite run_segment_bind. erewrite seg_load_array; [| done | lia | done]. seg_simpl.
    rewrite run_segment_bind.
    erewrite seg_load_array; [| done | lia | by apply Hcells']. seg_simpl.
    erewrite seg_store_array; [| done | lia]. done. }
  rewrite (red_fold tr n _ h (partial a b vsize n 0)) in Hloop, Hinv2; try done.
  2,4: intros i Hi%elem_of_seqZ; lia.
  2,3: apply Hcells; lia.
  fold (dot_total a b vsize n) in Hloop, Hinv2.
  rewrite run_segment_bind, Hloop. seg_simpl.
  pose proof Hinv2 as (Harr2 & _ & _).
  assert (cell (store_cell h tr 0 (dot_total a b vsize n)) tr 0 = Some (dot_total a b vsize n)) as Hc0.
  { rewrite store_cell_cell by (eapply array_at_le; [| done]; lia). by rewrite decide_True. }
  rewrite run_segment_bind. erewrite seg_load_array; [| done | lia | done]. seg_simpl.
  erewrite seg_store_array; [| by apply store_cell_array | lia]. done.
Qed.

Lemma seg_dot_finish (tc tr t n f fn : Z) d s (h : heap_t) :
  control_at h tc t n f -> factory_at h f fn d s ->
  run_segment (dot_finish tc tr) h =
    Done (Blocked (Some n) (mylib_ThreadControl_free tc tr), h,
          [EvSync (Some t) (Some n) d]).
Proof.
  intros Hc Hf. unfold dot_finish. rewrite run_segment_bind.
  erewrite seg_sync by done. done.
Qed.

Lemma seg_dot_reduce (tc tr t n f fn : Z) d s (h : heap_t) :
  Int.in_int n -> 1 <= n ->
  control_at h tc t n f -> factory_at h f fn d s ->
  array_at h tr n -> array_at h dotresult 1 ->
  (t = 0 -> forall i, 0 <= i < n -> cell h tr i = Some (partial a b vsize n i)) ->
  run_segment (dot_reduce tc tr) h =
    Done (Blocked (Some n) (mylib_ThreadControl_free tc tr),
          (if t =? 0 then summed_up tr n h else h),
          (if t =? 0 then sum_up_events tr n else []) ++ [EvSync (Some t) (Some n) d]).
Proof.
  intros Hn Hn1 Hc Hf Harr Hdr Hcells. unfold dot_reduce.
  rewrite run_segment_bind, (seg_load h tc F_tid _ t Hc) by done. seg_simpl.
  rewrite run_segment_bind. destruct (Z.eqb_spec t 0) as [-> | Hne].
  - erewrite seg_dot_sum_up by (done || by apply Hcells). seg_simpl.
    erewrite seg_dot_finish; [done | | ].
    + unfold summed_up. by do 2 apply store_cell_control.
    + unfold summed_up. do 2 apply store_cell_factory. done.
  - cbn [run_segment]. seg_simpl. by erewrite seg_dot_finish.
Qed.

(** *** The region *)

Lemma store_cell_region_ok (h : heap_t) q i x size tc f fn d s :
  region_ok h size tc f fn d s -> region_ok (store_cell h q i x) size tc f fn d s.
Proof.
  intros [Hf Hc]. split; [by apply store_cell_factory |].
  intros j Hj. by apply store_cell_control, Hc.
Qed.

Lemma delete_region_ok (h : heap_t) q nb cells size tc f fn d s :
  h !! q = Some (OBuffer nb cells) ->
  region_ok h size tc f fn d s -> region_ok (delete q h) size tc f fn d s.
Proof.
  intros Hq [Hf Hc]. split.
  - apply factory_at_delete_ne; [| done]. intros ->. destruct Hf as [_ Hf]. congruence.
  - intros j Hj. apply control_at_delete_ne; [| by apply Hc].
    intros ->. specialize (Hc j Hj). unfold control_at in Hc. congruence.
Qed.

Lemma scratch_bytes_exact (n : Z) :
  0 <= n -> n * sizeof_double <= Int.INT_MAX ->
  to_size_t (scratch_bytes n) = n * sizeof_double.
Proof.
  unfold scratch_bytes, to_size_t, sizeof_double, Int.INT_MAX. intros H0 Hn.
  rewrite (Z.mod_small n) by lia. rewrite (Z.mod_small (n * 8)) by lia.
  rewrite wrap_in_int by (unfold Int.in_int, Int.INT_MIN, Int.INT_MAX; lia).
  apply Z.mod_small. lia.
Qed.

(** The events of thread [t] of [n] over the whole routine. *)
Definition dot_events (f p t n : Z) (d : option addr) : list event :=
  [EvSync (Some t) (Some n) d]
  ++ (malloc_write_events t f (scratch_bytes n) p ++ [EvSync (Some t) (Some n) d])
  ++ ([EvGetShared f (Some p); EvWrite p t]
      ++ flat_map (acc_events p t) (range vsize t n)
      ++ [EvSync (Some t) (Some n) d])
  ++ ((if t =? 0 then sum_up_events p n else []) ++ [EvSync (Some t) (Some n) d])
  ++ [EvSync (Some t) (Some n) d]
  ++ (if t =? 0 then [EvFree p] else []).

(** The whole routine in a region, for any partition that stays inside the
    arrays and when the scratch buffer can be allocated: every thread
    returns, [dotresult] holds the partial sums added in the order of the
    slots, and the scratch buffer is released. *)
Lemma region_vector_dot (size : nat) (tc : nat -> addr) f fn d s p
    fuel sched (h : heap_t) :
  (1 <= size)%nat ->
  fair size sched ->
  region_ok h size tc f fn d s ->
  holds h v1 vsize a -> holds h v2 vsize b -> array_at h dotresult 1 ->
  Int.in_int vsize ->
  Z.of_nat size * sizeof_double <= Int.INT_MAX ->
  (forall (t : nat) i, (t < size)%nat ->
     in_range (Z.of_nat t) (Z.of_nat size) vsize i -> 0 <= i < vsize) ->
  malloc_at (dom h) (Z.of_nat size * sizeof_double) = Some p ->
  exists w',
    run_region (6 + fuel) sched 0
      (spmd size (fun i => mylib_vector_dot (tc i) v1 v2 dotresult vsize))
      {| heap := h; trace := [] |}
    = Returned (replicate size tt) w' /\
    cell (heap w') dotresult 0 = Some (dot_total a b vsize (Z.of_nat size)) /\
    heap w' !! p = None /\
    (forall q, q <> dotresult -> q <> f -> heap w' !! q = h !! q) /\
    (forall t : nat, (t < size)%nat ->
       events_of t (trace w') = dot_events f p (Z.of_nat t) (Z.of_nat size) d).
Proof.
  intros Hsize Hfair Hok H1 H2 Hdr Hv Hbytes Hin Halloc.
  set (n := Z.of_nat size) in *.
  assert (Int.in_int n) as Hn.
  { unfold Int.in_int, Int.INT_MIN, Int.INT_MAX, sizeof_double in *. lia. }
  pose proof (scratch_bytes_exact n ltac:(lia) Hbytes) as Hnb.
  pose proof Hok as [Hf Hc].
  (* the published buffer *)
  set (nb := scratch_bytes n) in *.
  assert ((published h f fn d nb).1 = p) as Hp.
  { unfold published, malloc_result. cbn. by rewrite Hnb, Halloc. }
  destruct (malloc_fresh _ _ _ Halloc) as [Hpnn Hpfresh%not_elem_of_dom].
  set (h2 := (published h f fn d nb).2).
  assert (h2 = <[f := OFactory {| sync := Some fn; sync_data := d; shared_data := Some p |}]>
                 (<[p := OBuffer (n * sizeof_double) ∅]> h)) as Hh2eq.
  { unfold h2, published, malloc_result. cbn. by rewrite Hnb, Halloc. }
  assert (p <> f) as Hpf by (intros ->; destruct Hf as [_ Hf]; congruence).
  assert (forall q o, h !! q = Some o -> q <> p) as Hlive by (intros q o Hq ->; congruence).
  assert (region_ok h2 size tc f fn d (Some p)) as Hok2.
  { unfold h2. rewrite <- Hp. by eapply region_ok_published. }
  assert (forall q, q <> p -> q <> f -> h2 !! q = h !! q) as Hframe2.
  { intros q Hq1 Hq2. by rewrite Hh2eq, !lookup_insert_ne. }
  assert (array_at h2 p n) as Harr2.
  { exists (n * sizeof_double), ∅. split; [| unfold sizeof_double; lia].
    by rewrite Hh2eq, lookup_insert_ne, lookup_insert_eq. }
  assert (forall q m (c : Z -> R), holds h q m c -> holds h2 q m c) as Hholds2.
  { intros q m c [(nq & cq & Hq & Hm) Hcells].
    assert (h2 !! q = h !! q) as Heq.
    { apply Hframe2; [by eapply Hlive |]. intros ->. destruct Hf as [_ Hf]. congruence. }
    split; [exists nq, cq; by rewrite Heq |].
    intros i Hi. unfold cell. rewrite Heq. by apply Hcells. }
  assert (array_at h2 dotresult 1) as Hdr2.
  { destruct Hdr as (nq & cq & Hq & Hm). exists nq, cq. split; [| done].
    rewrite Hframe2; [done | by eapply Hlive |]. intros ->. destruct Hf as [_ Hf]. congruence. }
  assert (p <> v1) as Hpv1.
  { intros ->. destruct H1 as [(? & ? & Hq & _) _]. congruence. }
  assert (p <> v2) as Hpv2.
  { intros ->. destruct H2 as [(? & ? & Hq & _) _]. congruence. }
  assert (p <> dotresult) as Hpdr.
  { intros ->. destruct Hdr as (? & ? & Hq & _). congruence. }
  (* phase 0: up to the first rendezvous of the allocation *)
  destruct (run_phase_spmd size
              (fun i => mylib_vector_dot (tc i) v1 v2 dotresult vsize)
              (fun i => Blocked (Some n)
                          (bind (malloc_tail (tc i) nb) (dot_body (tc i))))
              (fun i => [EvSync (Some (Z.of_nat i)) (Some n) d])
              (fun _ h' => h' = h) (sched 0%nat) {| heap := h; trace := [] |})
    as (w1 & dn1 & Hrun1 & _ & Hh1 & Hev1); [apply Hfair | done | |].
  { intros i dn h' Hi _ ->. exists h. split; [| done].
    rewrite dot_unfold.
    rewrite run_segment_bind, (seg_load h (tc i) F_tsize _ n (Hc i Hi)) by done. seg_simpl.
    rewrite run_segment_bind.
    erewrite seg_malloc_routine by (done || by apply Hc). done. }
  (* phase 1: the second rendezvous of the allocation *)
  rewrite <- Hh1 in Hok.
  destruct (region_malloc_tail (fun i t => bind t (dot_body (tc i)))
              (fun i => dot_body (tc i)) size tc f fn d s nb
              (4 + fuel) sched 1%nat w1 (fun _ => context_bind _) Hsize Hfair Hok)
    as (w2 & Hrun2 & Hh2 & Hev2).
  rewrite Hh1 in Hh2, Hev2. rewrite Hp in Hev2. fold h2 in Hh2.
  (* phase 2: every thread fills its slot *)
  destruct (run_phase_spmd size
              (fun i => bind (malloc_read (tc i)) (dot_body (tc i)))
              (fun i => Blocked (Some n) (dot_reduce (tc i) p))
              (fun i => acc_phase_events f p (Z.of_nat i) n d)
              (fun dn h' =>
                 region_ok h' size tc f fn d (Some p) /\
                 holds h' v1 vsize a /\ holds h' v2 vsize b /\
                 array_at h' p n /\ array_at h' dotresult 1 /\
                 (forall q, q <> p -> h' !! q = h2 !! q) /\
                 (forall t : nat, t ∈ dn -> cell h' p (Z.of_nat t) = Some (partial a b vsize n (Z.of_nat t))))
              (sched 2%nat) w2)
    as (w3 & dn3 & Hrun3 & Hall3 & (Hok3 & _ & _ & Harr3 & Hdr3 & Hframe3 & Hslots3) & Hev3);
    [apply Hfair | | |].
  { rewrite Hh2. split; [done |]. split; [by apply Hholds2 |]. split; [by apply Hholds2 |].
    split; [done |]. split; [done |]. split; [done |].
    intros t Ht%elem_of_nil. done. }
  { intros i dn h' Hi Hidn (Hok' & H1' & H2' & Harr' & Hdr' & Hframe' & Hslots').
    pose proof Hok' as [Hf' Hc'].
    exists (store_cell h' p (Z.of_nat i) (partial a b vsize n (Z.of_nat i))). split.
    - rewrite run_segment_bind.
      erewrite seg_malloc_read by (done || by apply Hc'). seg_simpl. cbn [dot_body definite bind].
      erewrite seg_dot_accumulate; [done | done | done | done | | by apply Hc' | done | done
                                    | done | lia |].
      + intros j. by apply Hin.
      + eapply array_at_le; [| done]. lia.
    - assert (array_at h' p (Z.of_nat i + 1)) by (eapply array_at_le; [| done]; lia).
      split; [by apply store_cell_region_ok |].
      split; [by apply store_cell_holds_ne |]. split; [by apply store_cell_holds_ne |].
      split; [by apply store_cell_array |]. split; [by apply store_cell_array |].
      split; [intros q Hq; rewrite store_cell_lookup_ne by done; by apply Hframe' |].
      intros t Ht. rewrite store_cell_cell by done.
      destruct (decide (t = i)) as [-> | Hne].
      + by rewrite decide_True.
      + rewrite decide_False by (intros [_ ?]; lia).
        apply elem_of_cons in Ht as [? | Ht]; [done | by apply Hslots']. }
  (* phase 3: thread 0 adds the slots up *)
  set (h3 := heap w3) in *.
  assert (forall i, 0 <= i < n -> cell h3 p i = Some (partial a b vsize n i)) as Hcells3.
  { intros i Hi. rewrite <- (Z2Nat.id i) by lia. apply Hslots3, Hall3. lia. }
  destruct (run_phase_spmd size
              (fun i => dot_reduce (tc i) p)
              (fun i => Blocked (Some n) (mylib_ThreadControl_free (tc i) p))
              (fun i => (if Z.of_nat i =? 0 then sum_up_events p n else [])
                          ++ [EvSync (Some (Z.of_nat i)) (Some n) d])
              (fun dn h' => h' = if decide (0%nat ∈ dn) then summed_up p n h3 else h3)
              (sched 3%nat) w3)
    as (w4 & dn4 & Hrun4 & Hall4 & Hh4 & Hev4); [apply Hfair | | |].
  { by rewrite decide_False by apply not_elem_of_nil. }
  { intros i dn h' Hi Hidn ->. pose proof Hok3 as [Hf3 Hc3].
    destruct (decide (i = 0%nat)) as [-> | Hne].
    - rewrite decide_False by done.
      erewrite seg_dot_reduce; [| done | lia | by apply Hc3 | done | done | done | done].
      cbn [Z.of_nat Z.eqb]. exists (summed_up p n h3). split; [done |].
      by rewrite decide_True by (apply elem_of_cons; by left).
    - assert ((Z.of_nat i =? 0) = false) as Hz by (apply Z.eqb_neq; lia).
      destruct (decide (0%nat ∈ dn)) as [H0 | H0].
      + rewrite (seg_dot_reduce (tc i) p (Z.of_nat i) n f fn d (Some p));
          [| done | lia | | | | | intros ?; exfalso; lia].
        * rewrite Hz. exists (summed_up p n h3). split; [done |].
          by rewrite decide_True by (apply elem_of_cons; by right).
        * unfold summed_up. do 2 apply store_cell_control. by apply Hc3.
        * unfold summed_up. do 2 apply store_cell_factory. done.
        * unfold summed_up. by do 2 apply store_cell_array.
        * unfold summed_up. by do 2 apply store_cell_array.
      + rewrite (seg_dot_reduce (tc i) p (Z.of_nat i) n f fn d (Some p));
          [| done | lia | by apply Hc3 | done | done | done | intros ?; exfalso; lia].
        rewrite Hz. exists h3. split; [done |].
        rewrite decide_False; [done |]. intros [? | ?]%elem_of_cons; [lia | done]. }
  set (h4 := summed_up p n h3) in *.
  assert (heap w4 = h4) as Hh4'.
  { rewrite Hh4. rewrite decide_True; [done |]. apply Hall4. lia. }
  assert (region_ok h4 size tc f fn d (Some p)) as Hok4.
  { unfold h4, summed_up. by do 2 apply store_cell_region_ok. }
  (* phase 4: the rendezvous of the release *)
  destruct (run_phase_spmd size
              (fun i => mylib_ThreadControl_free (tc i) p)
              (fun i => Blocked (Some n) (free_tail (tc i) p))
              (fun i => [EvSync (Some (Z.of_nat i)) (Some n) d])
              (fun _ h' => h' = h4) (sched 4%nat) w4)
    as (w5 & dn5 & Hrun5 & _ & Hh5 & Hev5); [apply Hfair | done | |].
  { intros i dn h' Hi _ ->. exists h4. split; [| done].
    destruct Hok4 as [Hf4 Hc4].
    by erewrite seg_free_routine by (done || by apply Hc4). }
  (* phase 5: thread 0 releases the scratch buffer *)
  assert (exists nb' cells', h4 !! p = Some (OBuffer nb' cells')) as (nb' & cells' & Hp4).
  { assert (array_at h4 p n) as (nb' & cells' & Hq & _).
    { unfold h4, summed_up. by do 2 apply store_cell_array. }
    by exists nb', cells'. }
  destruct (run_phase_spmd size
              (fun i => free_tail (tc i) p)
              (fun _ => Finished tt)
              (fun i => if Z.of_nat i =? 0 then [EvFree p] else [])
              (fun dn h' => h' = if decide (0%nat ∈ dn) then delete p h4 else h4)
              (sched 5%nat) w5)
    as (w6 & dn6 & Hrun6 & Hall6 & Hh6 & Hev6); [apply Hfair | | |].
  { rewrite Hh5. by rewrite decide_False by apply not_elem_of_nil. }
  { intros i dn h' Hi Hidn ->. pose proof Hok4 as [Hf4 Hc4].
    pose proof (delete_region_ok h4 p nb' cells' size tc f fn d (Some p) Hp4 Hok4)
      as [Hf4' Hc4'].
    destruct (decide (i = 0%nat)) as [-> | Hne].
    - rewrite decide_False by done.
      erewrite seg_free_tail by (by apply Hc4). cbn [Z.of_nat Z.eqb].
      rewrite (seg_free_live h4 p _ Hpnn Hp4).
      exists (delete p h4). split; [done |].
      by rewrite decide_True by (apply elem_of_cons; by left).
    - assert ((Z.of_nat i =? 0) = false) as Hz by (apply Z.eqb_neq; lia).
      destruct (decide (0%nat ∈ dn)) as [H0 | H0].
      + erewrite seg_free_tail by (by apply Hc4'). rewrite Hz.
        exists (delete p h4). split; [done |].
        by rewrite decide_True by (apply elem_of_cons; by right).
      + erewrite seg_free_tail by (by apply Hc4). rewrite Hz.
        exists h4. split; [done |].
        rewrite decide_False; [done |]. intros [? | ?]%elem_of_cons; [lia | done]. }
  assert (heap w6 = delete p h4) as Hh6'.
  { rewrite Hh6. rewrite decide_True; [done |]. apply Hall6. lia. }
  exists w6. split.
  { unfold spmd. change (6 + fuel)%nat with (S (S (S (S (S (S fuel)))))).
    rewrite (region_step_blocked _ _ _ _ _ _ _ _ Hsize Hrun1).
    cbn [Nat.add] in Hrun2. rewrite Hrun2.
    rewrite (region_step_blocked _ _ _ _ _ _ _ _ Hsize Hrun3).
    rewrite (region_step_blocked _ _ _ _ _ _ _ _ Hsize Hrun4).
    rewrite (region_step_blocked _ _ _ _ _ _ _ _ Hsize Hrun5).
    rewrite (region_step_finished _ _ _ _ _ _ _ _ Hrun6).
    by rewrite map_const_replicate, length_seq. }
  split.
  { rewrite Hh6'. unfold cell. rewrite lookup_delete_ne by done.
    fold (cell h4 dotresult 0). unfold h4, summed_up.
    rewrite store_cell_cell.
    - by rewrite decide_True.
    - apply store_cell_array. eapply array_at_le; [| done]. lia. }
  split; [by rewrite Hh6', lookup_delete_eq |]. split.
  { intros q Hqdr Hqf. rewrite Hh6'.
    destruct (decide (q = p)) as [-> | Hqp]; [by rewrite lookup_delete_eq |].
    rewrite lookup_delete_ne by done. unfold h4, summed_up.
    rewrite !store_cell_lookup_ne by done. unfold h3. rewrite Hframe3 by done.
    by apply Hframe2. }
  intros t Ht. rewrite Hev6, Hev5, Hev4, Hev3, Hev2, Hev1.
  rewrite !decide_True by done. cbn [trace events_of filter map].
  unfold dot_events, acc_phase_events. subst n nb.
  repeat (progress (cbn [app]; rewrite <- ?app_assoc)). done.
Qed.

End VectorDot.

(** ** The dot product as a sum *)
Section DotSum.

Context {R : Type} {DR : Double R} {EX : ExactDouble R}.

Variables (a b : Z -> R) (vsize : Z).

Lemma dot_fold_app (l1 l2 : list Z) (acc : R) :
  dot_fold a b (l1 ++ l2) acc = dot_fold a b l2 (dot_fold a b l1 acc).
Proof. unfold dot_fold. apply foldl_app. Qed.

Lemma dot_fold_acc (l : list Z) (acc : R) :
  dot_fold a b l acc = dadd acc (dot_fold a b l dzero).
Proof.
  revert acc. induction l as [| i l IH] using rev_ind; intros acc.
  - cbn. by rewrite dadd_zero_r.
  - rewrite !dot_fold_app. cbn. rewrite (IH acc). by rewrite dadd_assoc.
Qed.

(** Where the ranges of the first [k] threads end. *)
Definition reach (tsize k : Z) : Z := Z.min (k * ceil_div vsize tsize) vsize.

Lemma range_reach (tsize t : Z) :
  1 <= tsize -> 0 <= vsize -> no_overflow tsize vsize -> 0 <= t < tsize ->
  range vsize t tsize = seqZ (reach tsize t) (reach tsize (t + 1) - reach tsize t).
Proof.
  intros Ht Hv Hno Htid. unfold range, reach.
  destruct (index_exact t tsize vsize Ht Hv Hno Htid) as [-> ->].
  destruct (ceil_div_bounds tsize vsize Ht Hv) as (H0 & _).
  set (e := ceil_div vsize tsize) in *.
  destruct (Z.le_gt_cases (t * e) vsize) as [Hle | Hgt].
  - by rewrite (Z.min_l (t * e)) by done.
  - rewrite !seqZ_nil; [done | nia | nia].
Qed.

(** With exact arithmetic the slots added up in order are the sequential
    sum of the indices covered so far. *)
Lemma slots_sum (tsize : Z) (k : nat) :
  1 <= tsize -> 0 <= vsize -> no_overflow tsize vsize -> 1 + Z.of_nat k <= tsize ->
  foldl (fun acc t => dadd acc (partial a b vsize tsize t))
        (partial a b vsize tsize 0) (seqZ 1 (Z.of_nat k))
  = dot_fold a b (seqZ 0 (reach tsize (1 + Z.of_nat k))) dzero.
Proof.
  intros Ht Hv Hno. destruct (ceil_div_bounds tsize vsize Ht Hv) as (H0 & _).
  induction k as [| k IH]; intros Hk.
  - cbn [foldl seqZ Z.of_nat]. unfold partial.
    rewrite range_reach by (done || lia). unfold reach. cbn.
    rewrite Z.min_l by lia. by rewrite Z.sub_0_r.
  - rewrite seqZ_S, foldl_app, IH by lia. cbn [foldl]. unfold partial.
    rewrite range_reach by (done || lia).
    rewrite <- dot_fold_acc, <- dot_fold_app.
    replace (1 + Z.of_nat k + 1) with (1 + Z.of_nat (S k)) by lia.
    rewrite <- seqZ_app.
    + f_equal. f_equal. lia.
    + unfold reach. nia.
    + unfold reach. nia.
Qed.

(** Without overflow and with exact arithmetic the value written to
    [dotresult] is the sequential sum, whatever the number of threads. *)
Lemma dot_total_sequential (tsize : Z) :
  1 <= tsize -> 0 <= vsize -> no_overflow tsize vsize ->
  dot_total a b vsize tsize = sequential_dot a b vsize.
Proof.
  intros Ht Hv Hno. unfold dot_total, sequential_dot.
  replace (tsize - 1) with (Z.of_nat (Z.to_nat (tsize - 1))) by lia.
  rewrite slots_sum by (done || lia). f_equal. f_equal.
  destruct (ceil_div_bounds tsize vsize Ht Hv) as (H0 & Hcov & _).
  unfold reach. replace (1 + Z.of_nat (Z.to_nat (tsize - 1))) with tsize by lia. lia.
Qed.

End DotSum.

(** ** The kernels without overflow *)
Section Kernels.

Context {R : Type} {DR : Double R} {AL : Allocator}.

Local Abbreviation heap_t := (gmap addr (object R)).

(** Without overflow, and when the scratch buffer can be allocated, every
    thread of the region returns from [mylib_vector_dot]; the value written
    to [dotresult] is slot 0 plus slots 1, ..., [size - 1] in this order,
    slot [t] being the sum over the range of thread [t]; with exact
    arithmetic it is the sequential sum over [0, vsize), the same for every
    number of threads. *)
Lemma vector_dot_correct (a b : Z -> R) (v1 v2 dotresult : addr) (vsize : Z)
    (size : nat) (tc : nat -> addr) f fn d s p fuel sched (h : heap_t) :
  (1 <= size)%nat -> 0 <= vsize -> no_overflow (Z.of_nat size) vsize ->
  Z.of_nat size * sizeof_double <= Int.INT_MAX ->
  fair size sched ->
  region_ok h size tc f fn d s ->
  holds h v1 vsize a -> holds h v2 vsize b -> array_at h dotresult 1 ->
  malloc_at (dom h) (Z.of_nat size * sizeof_double) = Some p ->
  exists w',
    run_region (6 + fuel) sched 0
      (spmd size (fun i => mylib_vector_dot (tc i) v1 v2 dotresult vsize))
      {| heap := h; trace := [] |}
    = Returned (replicate size tt) w' /\
    cell (heap w') dotresult 0 = Some (dot_total a b vsize (Z.of_nat size)) /\
    (ExactDouble R -> dot_total a b vsize (Z.of_nat size) = sequential_dot a b vsize) /\
    heap w' !! p = None.
Proof.
  intros Hsize Hv Hno Hbytes Hfair Hok H1 H2 Hdr Halloc.
  destruct (no_overflow_ints (Z.of_nat size) vsize ltac:(lia) Hv Hno) as [_ Hvi].
  destruct (region_vector_dot a b v1 v2 dotresult vsize size tc f fn d s p fuel sched h)
    as (w' & Hrun & Hres & Hfreed & _ & _); try done.
  { intros t i Ht Hi. eapply (range_inside (Z.of_nat t) (Z.of_nat size)); try done; lia. }
  exists w'. split; [done |]. split; [done |]. split; [| done].
  intros EX. apply dot_total_sequential; (done || lia).
Qed.

(** Without overflow, a thread running [mylib_vector_add] returns, every
    element it reads or writes has its index in [0, vsize), and a thread
    whose range is empty touches nothing. *)
Lemma vector_add_accesses_in_bounds (a b : Z -> R) (v1 v2 vresult : addr) (vsize : Z)
    (tc t n f : Z) (h : heap_t) :
  1 <= n -> 0 <= t < n -> 0 <= vsize -> no_overflow n vsize ->
  control_at h tc t n f ->
  holds h v1 vsize a -> holds h v2 vsize b -> array_at h vresult vsize ->
  vresult <> v1 -> vresult <> v2 ->
  exists h' evs,
    run_solo (mylib_vector_add tc v1 v2 vresult vsize) h = Done (tt, h', evs) /\
    (forall q i, EvRead q i ∈ evs \/ EvWrite q i ∈ evs -> 0 <= i < vsize) /\
    (end_index t n vsize <= begin_index t n vsize -> evs = [] /\ h' = h).
Proof.
  intros Hn Ht Hv Hno Hc H1 H2 Hr Hn1 Hn2.
  destruct (no_overflow_ints n vsize Hn Hv Hno) as [_ Hvi].
  rewrite run_solo_segment.
  rewrite (seg_vector_add a b v1 v2 vresult vsize h tc t n f); try done.
  2:{ intros i Hi. by eapply (range_inside t n). }
  eexists _, _. split; [done |]. split.
  - intros q i Hev.
    assert (exists j, j ∈ range vsize t n /\ i = j) as (j & Hj & ->).
    { destruct Hev as [Hev | Hev];
        apply list_elem_of_In, in_flat_map in Hev as (j & Hj%list_elem_of_In & Hin);
        exists j; (split; [done |]); cbn in Hin;
        destruct Hin as [Heq | [Heq | [Heq | []]]]; congruence. }
    apply elem_of_range in Hj. by eapply (range_inside t n).
  - intros Hempty. unfold range. rewrite seqZ_nil by lia. done.
Qed.

End Kernels.

(** ** The concrete regions *)

Lemma fair_in_order (size : nat) : fair size (in_order size).
Proof. intros phase. reflexivity. Qed.

Lemma fair_backwards (size : nat) : fair size (backwards size).
Proof. intros phase. apply reverse_Permutation. Qed.

Lemma region_heap_control (size i : nat) :
  (i < size)%nat ->
  region_heap size !! tc_of i = Some (control_of (Z.of_nat i) (Z.of_nat size) 100).
Proof.
  intros Hi. unfold region_heap.
  rewrite lookup_insert_ne by (unfold tc_of; lia).
  apply elem_of_list_to_map.
  - rewrite <- list_fmap_compose. apply NoDup_fmap_2; [| apply NoDup_seq].
    intros x y Hxy. cbn in Hxy. unfold tc_of in Hxy. lia.
  - apply list_elem_of_fmap. exists i. split; [done |]. apply elem_of_seq. lia.
Qed.

Lemma region_heap_ok (size : nat) :
  region_ok (region_heap size) size tc_of 100 7 None None.
Proof.
  split.
  - split; [done |]. unfold region_heap. by rewrite lookup_insert_eq.
  - intros i Hi. by apply region_heap_control.
Qed.

Lemma kernel_heap_ok (size : nat) x y n :
  region_ok (kernel_heap size x y n) size tc_of 100 7 None None.
Proof.
  destruct (region_heap_ok size) as [[Hfn Hf] Hc]. unfold kernel_heap. split.
  - split; [done |]. by rewrite !lookup_insert_ne.
  - intros i Hi. unfold control_at.
    rewrite !lookup_insert_ne by (unfold tc_of; lia). by apply Hc.
Qed.

Lemma kernel_heap_holds (size : nat) x y n :
  0 <= n ->
  holds (kernel_heap size x y n) 10 n x /\
  holds (kernel_heap size x y n) 11 n y /\
  array_at (kernel_heap size x y n) 12 n /\
  forall i, cell (kernel_heap size x y n) 12 i = None.
Proof.
  intros Hn. unfold kernel_heap, array_of, blank.
  split; [| split; [| split]].
  - split.
    + eexists _, _. split; [by rewrite lookup_insert_eq | lia].
    + intros i Hi. unfold cell. rewrite lookup_insert_eq, fill_lookup. by rewrite decide_True.
  - split.
    + eexists _, _. split.
      * rewrite lookup_insert_ne by done. by rewrite lookup_insert_eq.
      * lia.
    + intros i Hi. unfold cell. rewrite lookup_insert_ne by done.
      rewrite lookup_insert_eq, fill_lookup. by rewrite decide_True.
  - eexists _, _. split.
    + rewrite !lookup_insert_ne by done. by rewrite lookup_insert_eq.
    + lia.
  - intros i. unfold cell. rewrite !lookup_insert_ne by done.
    by rewrite lookup_insert_eq.
Qed.

(** ** The kernels on an input where the partition overflows

    Two threads, vectors of [INT_MAX] elements all equal to 1. *)

Lemma overflow_ranges (t : nat) i :
  (t < 2)%nat -> in_range (Z.of_nat t) (Z.of_nat 2) 2147483647 i -> 0 <= i < 1073741824.
Proof.
  intros Ht. unfold in_range.
  destruct t as [| [| t]]; [| | lia].
  - change (begin_index (Z.of_nat 0) (Z.of_nat 2) 2147483647) with 0.
    change (end_index (Z.of_nat 0) (Z.of_nat 2) 2147483647) with 1073741824. lia.
  - change (begin_index (Z.of_nat 1) (Z.of_nat 2) 2147483647) with 1073741824.
    change (end_index (Z.of_nat 1) (Z.of_nat 2) 2147483647) with (-2147483648). lia.
Qed.

(** C3 on that input: both threads return from [mylib_vector_add], and
    [vresult[2^30]] has not been assigned although [v1[2^30]] and
    [v2[2^30]] are there to be added. *)
Theorem vector_add_gap_on_overflow :
  exists w',
    run_region (AL := bump_allocator 0) 1 (backwards 2) 0
      (spmd 2 (fun i => mylib_vector_add (tc_of i) 10 11 12 2147483647))
      {| heap := kernel_heap 2 (fun _ => 1) (fun _ => 1) 2147483647; trace := [] |}
    = Returned [tt; tt] w' /\
    cell (kernel_heap 2 (fun _ => 1) (fun _ => 1) 2147483647) 10 1073741824 = Some 1 /\
    cell (kernel_heap 2 (fun _ => 1) (fun _ => 1) 2147483647) 11 1073741824 = Some 1 /\
    cell (heap w') 12 1073741824 = None.
Proof.
  set (h := kernel_heap 2 (fun _ => 1) (fun _ => 1) 2147483647).
  destruct (kernel_heap_holds 2 (fun _ => 1) (fun _ => 1) 2147483647 ltac:(lia))
    as (H1 & H2 & Hr & Hblank).
  destruct (kernel_heap_ok 2 (fun _ => 1) (fun _ => 1) 2147483647) as [_ Hc].
  fold h in H1, H2, Hr, Hblank, Hc.
  assert (Int.in_int 2147483647) as Hv by (unfold Int.in_int, Int.INT_MIN, Int.INT_MAX; lia).
  assert (forall (t : nat) i, (t < 2)%nat ->
            in_range (Z.of_nat t) (Z.of_nat 2) 2147483647 i -> 0 <= i < 2147483647) as Hin.
  { intros t i Ht Hi. pose proof (overflow_ranges t i Ht Hi). lia. }
  destruct (region_vector_add (AL := bump_allocator 0) (fun _ => 1) (fun _ => 1)
              10 11 12 2147483647 2 tc_of (fun _ => 100) 0 (backwards 2) h
              (fair_backwards 2) Hc (conj H1 (conj H2 Hr))
              ltac:(lia) ltac:(lia) Hv Hin)
    as (w' & Hrun & _ & _ & Hunc & _).
  exists w'. split; [exact Hrun |].
  split; [apply H1; lia |]. split; [apply H2; lia |].
  rewrite Hunc; [apply Hblank |].
  intros t Ht Hi. pose proof (overflow_ranges t _ Ht Hi). lia.
Qed.

Lemma kernel_heap_dom (size : nat) x y n :
  dom (kernel_heap size x y n) = {[10]} ∪ ({[11]} ∪ ({[12]} ∪ dom (region_heap size))).
Proof. unfold kernel_heap. by rewrite !dom_insert_L. Qed.

Lemma dot_fold_ones (l : list Z) (acc : Z) :
  dot_fold (fun _ => 1) (fun _ => 1) l acc = acc + Z.of_nat (length l).
Proof.
  revert acc. induction l as [| i l IH]; intros acc; cbn; [lia |].
  unfold dot_fold in IH. rewrite IH. lia.
Qed.

(** C1 on that input: both threads return from [mylib_vector_dot] and the
    value written to [dotresult] is 2^30, the sum over the range of thread
    0 alone, while the sum of [v1[i] * v2[i]] over [0, vsize) is
    [INT_MAX]. *)
Theorem vector_dot_drops_terms_on_overflow :
  exists w',
    run_region (AL := bump_allocator 1000) 6 (backwards 2) 0
      (spmd 2 (fun i => mylib_vector_dot (tc_of i) 10 11 12 2147483647))
      {| heap := kernel_heap 2 (fun _ => 1) (fun _ => 1) 2147483647; trace := [] |}
    = Returned [tt; tt] w' /\
    cell (heap w') 12 0 = Some 1073741824 /\
    sequential_dot (fun _ => 1) (fun _ => 1) 2147483647 = 2147483647.
Proof.
  set (h := kernel_heap 2 (fun _ => 1) (fun _ => 1) 2147483647).
  destruct (kernel_heap_holds 2 (fun _ => 1) (fun _ => 1) 2147483647 ltac:(lia))
    as (H1 & H2 & Hr & Hblank).
  pose proof (kernel_heap_ok 2 (fun _ => 1) (fun _ => 1) 2147483647) as Hok.
  fold h in H1, H2, Hr, Hblank, Hok.
  assert (Int.in_int 2147483647) as Hv by (unfold Int.in_int, Int.INT_MIN, Int.INT_MAX; lia).
  assert (forall (t : nat) i, (t < 2)%nat ->
            in_range (Z.of_nat t) (Z.of_nat 2) 2147483647 i -> 0 <= i < 2147483647) as Hin.
  { intros t i Ht Hi. pose proof (overflow_ranges t i Ht Hi). lia. }
  assert (malloc_at (Allocator := bump_allocator 1000) (dom h) (Z.of_nat 2 * sizeof_double)
          = Some 202) as Halloc.
  { unfold h. rewrite kernel_heap_dom. reflexivity. }
  assert (array_at h 12 1) as Hdr by (eapply array_at_le; [| exact Hr]; lia).
  destruct (region_vector_dot (AL := bump_allocator 1000) (fun _ => 1) (fun _ => 1)
              10 11 12 2147483647 2 tc_of 100 7 None None 202 0 (backwards 2) h
              ltac:(lia) (fair_backwards 2) Hok H1 H2 Hdr Hv
              ltac:(unfold sizeof_double, Int.INT_MAX; lia) Hin Halloc)
    as (w' & Hrun & Hres & _).
  exists w'. split; [exact Hrun |]. split.
  - rewrite Hres. change (Z.of_nat 2) with 2.
    assert (dot_total (fun _ => 1) (fun _ => 1) 2147483647 2 = 1073741824) as ->;
      [| reflexivity].
    unfold dot_total. change (seqZ 1 (2 - 1)) with [1]. cbn [foldl].
    unfold partial, range. rewrite !dot_fold_ones, !length_seqZ.
    assert (begin_index 0 2 2147483647 = 0) as -> by reflexivity.
    assert (end_index 0 2 2147483647 = 1073741824) as -> by reflexivity.
    assert (begin_index 1 2 2147483647 = 1073741824) as -> by reflexivity.
    assert (end_index 1 2 2147483647 = -2147483648) as -> by reflexivity.
    cbn [dadd dzero Z_Double]. lia.
  - unfold sequential_dot. rewrite dot_fold_ones, length_seqZ. cbn [dzero Z_Double]. lia.
Qed.

(** C6 on an input where [tid * elements_per_thread] overflows as well:
    for the last of 65537 threads on vectors of [INT_MAX] elements the
    range starts at a negative index, and [mylib_vector_add] reads [v1]
    out of bounds in its first iteration. *)
Theorem out_of_bounds_on_overflow :
  0 <= 65536 < 65537 /\
  begin_index 65536 65537 2147483647 = -2147483648 /\
  end_index 65536 65537 2147483647 = -2147450880 /\
  in_range 65536 65537 2147483647 (-2147483648) /\
  run_solo (AL := bump_allocator 0)
    (mylib_vector_add 200 10 11 12 2147483647) last_thread_heap = Fault.
Proof.
  split; [lia |]. split; [reflexivity |]. split; [reflexivity |].
  split; [unfold in_range; split; [reflexivity | reflexivity] |].
  assert (control_at last_thread_heap 200 65536 65537 100) as Hc.
  { unfold control_at, last_thread_heap. rewrite !lookup_insert_ne by done.
    by rewrite lookup_singleton_eq. }
  rewrite run_solo_segment.
  assert (run_segment (AL := bump_allocator 0)
            (mylib_vector_add 200 10 11 12 2147483647) last_thread_heap = Fault) as ->;
    [| reflexivity].
  unfold mylib_vector_add, mbind, thread_bind.
  rewrite run_segment_bind, (seg_load last_thread_heap 200 F_tsize _ 65537 Hc) by done.
  seg_simpl.
  rewrite run_segment_bind, (seg_load last_thread_heap 200 F_tid _ 65536 Hc) by done.
  seg_simpl.
  assert (begin_index 65536 65537 2147483647 = -2147483648) as -> by reflexivity.
  assert (end_index 65536 65537 2147483647 = -2147450880) as -> by reflexivity.
  unfold for_range.
  assert (Z.to_nat (-2147450880 - -2147483648) = S (Z.to_nat 32767)) as -> by reflexivity.
  cbn [for_loop]. assert ((-2147483648 <? -2147450880) = true) as -> by reflexivity.
  unfold mbind, thread_bind. rewrite !run_segment_bind.
  assert (run_segment (AL := bump_allocator 0) (load_double 10 (-2147483648))
            last_thread_heap = Fault) as ->; [| reflexivity].
  unfold load_double, trigger. cbn [run_segment exec_op].
  unfold last_thread_heap. rewrite lookup_insert_eq. unfold array_of.
  assert (in_bounds (sizeof_double * 2147483647) (-2147483648) = false) as -> by reflexivity.
  reflexivity.
Qed.

(** ** The claims on the drivers' set-up *)

Lemma shared_malloc_protocol_witness :
  exists p w',
    run_region (AL := bump_allocator 1000) 3 (backwards 2) 0
      (spmd 2 (fun i => mylib_ThreadControl_malloc (tc_of i) 16))
      {| heap := region_heap 2; trace := [] |}
    = Returned (replicate 2 (Some p)) w' /\
    factory_at (heap w') 100 7 None (Some p).
Proof.
  destruct (shared_malloc_protocol (AL := bump_allocator 1000) 2 tc_of 100 7 None None 16
              0 (backwards 2) (region_heap 2))
    as (p & w' & Hrun & _ & Hf & _).
  - lia.
  - apply fair_backwards.
  - apply region_heap_ok.
  - by exists p, w'.
Defined.

(** C5 fails as stated: with the drivers' 4 threads and 10 elements the
    ranges have 3, 3, 3 and 1 elements. *)
Lemma range_sizes_differ_by_two :
  range_size 0 4 10 = 3 /\ range_size 3 4 10 = 1 /\
  ~ (forall tid1 tid2, 0 <= tid1 < 4 -> 0 <= tid2 < 4 ->
       Z.abs (range_size tid1 4 10 - range_size tid2 4 10) <= 1).
Proof.
  split; [reflexivity |]. split; [reflexivity |].
  intros H. specialize (H 0 3 ltac:(lia) ltac:(lia)).
  change (range_size 0 4 10) with 3 in H. change (range_size 3 4 10) with 1 in H. lia.
Qed.

Lemma range_sizes_witness :
  Z.abs (range_size 0 4 10 - range_size 3 4 10) <= ceil_div 10 4.
Proof.
  destruct (range_sizes_differ_by_at_most_chunk 4 10 0 3) as (_ & _ & _ & _ & H).
  - lia.
  - lia.
  - unfold no_overflow. vm_compute. discriminate.
  - lia.
  - lia.
  - exact H.
Defined.

(** C7 fails as stated: with an allocator that cannot serve the request,
    [mylib_ThreadFactory_create] returns normally, the null address being
    what it hands out, and [mylib_ThreadFactory_create_control] stores
    through the null address; neither reports an error. *)
Lemma allocation_failure_not_reported :
  run_solo (R := Z) (AL := bump_allocator 0) mylib_ThreadFactory_create (region_heap 0)
  = Done (NULL, region_heap 0, [EvMalloc sizeof_ThreadFactory_internal NULL]) /\
  run_solo (R := Z) (AL := bump_allocator 0) (mylib_ThreadFactory_create_control 100)
    (region_heap 0)
  = Fault.
Proof. split; reflexivity. Qed.

Lemma allocation_failure_witness :
  run_solo (R := Z) (AL := bump_allocator 0) mylib_ThreadFactory_create (region_heap 0)
  = Done (NULL, region_heap 0, [EvMalloc sizeof_ThreadFactory_internal NULL]) /\
  exists w',
    run_region (AL := bump_allocator 0) 3 (backwards 2) 0
      (spmd 2 (fun i => mylib_ThreadControl_malloc (tc_of i) 16))
      {| heap := region_heap 2; trace := [] |}
    = Returned (replicate 2 (Some NULL)) w'.
Proof.
  destruct (allocation_failure_yields_null (R := Z) (AL := bump_allocator 0)) as [Hcreate Hmalloc].
  split.
  - apply Hcreate. reflexivity.
  - destruct (Hmalloc 2%nat tc_of 100 7 None None 16 0%nat (backwards 2) (region_heap 2))
      as (w' & Hrun & _).
    + lia.
    + apply fair_backwards.
    + apply region_heap_ok.
    + reflexivity.
    + by exists w'.
Defined.

(** C9 fails as stated: after both threads of a region have performed
    [mylib_ThreadControl_malloc] and [mylib_ThreadControl_free], the
    factory's [shared_data] slot, indeterminate before, holds the address
    202 of the buffer, which is not allocated any more. *)
Lemma shared_slot_not_emptied :
  region_heap 2 !! 100
  = Some (OFactory {| sync := Some 7; sync_data := None; shared_data := None |}) /\
  exists w',
    run_region (AL := bump_allocator 1000) 4 (backwards 2) 0
      (spmd 2 (fun i => malloc_then_free (tc_of i) 16))
      {| heap := region_heap 2; trace := [] |}
    = Returned [tt; tt] w' /\
    heap w' !! 100
    = Some (OFactory {| sync := Some 7; sync_data := None; shared_data := Some 202 |}) /\
    heap w' !! 202 = None.
Proof.
  split; [reflexivity |].
  eexists. split; [vm_compute; reflexivity |]. split; reflexivity.
Qed.

Lemma malloc_free_witness :
  exists p w',
    run_region (AL := bump_allocator 1000) 4 (backwards 2) 0
      (spmd 2 (fun i => malloc_then_free (tc_of i) 16))
      {| heap := region_heap 2; trace := [] |}
    = Returned (replicate 2 tt) w' /\
    heap w' = <[100 := OFactory {| sync := Some 7; sync_data := None;
                                   shared_data := Some p |}]> (region_heap 2).
Proof.
  destruct (malloc_free_leaves_stale_slot (AL := bump_allocator 1000) 2 tc_of 100 7 None None
              16 0 (backwards 2) (region_heap 2))
    as (p & w' & Hrun & _ & Hh & _).
  - lia.
  - apply fair_backwards.
  - apply region_heap_ok.
  - by exists p, w'.
Defined.

Lemma free_witness :
  exists h' evs,
    run_solo (AL := bump_allocator 0) (mylib_ThreadControl_free (tc_of 0) 300)
      (<[300 := blank 1]> (region_heap 1))
    = Done (tt, h', evs) /\
    control_at h' (tc_of 0) 0 1 100 /\
    factory_at h' 100 7 None None.
Proof.
  destruct (free_leaves_fields_unchanged (AL := bump_allocator 0)
              (<[300 := blank 1]> (region_heap 1)) (tc_of 0) 300 0 1 100 7 None None)
    as (h' & evs & Hrun & Hc & Hf & _).
  - reflexivity.
  - split; [discriminate | reflexivity].
  - intros _. exists (sizeof_double * 1), ∅. reflexivity.
  - by exists h', evs.
Defined.

(** ** The drivers' run: 4 threads, [v1 = 0, 1, ..., 9], [v2 = 10, 9, ..., 1] *)

Example demo_vector_add :
  exists w',
    run_region (AL := bump_allocator 1000) 1 (backwards 4) 0
      (spmd 4 (fun i => mylib_vector_add (tc_of i) 10 11 12 10))
      {| heap := demo_heap; trace := [] |}
    = Returned [tt; tt; tt; tt] w' /\
    map (cell (heap w') 12) (seqZ 0 10) = replicate 10 (Some 10).
Proof. eexists. split; [vm_compute; reflexivity | reflexivity]. Qed.

Example demo_vector_dot :
  exists w',
    run_region (AL := bump_allocator 1000) 6 (backwards 4) 0
      (spmd 4 (fun i => mylib_vector_dot (tc_of i) 10 11 12 10))
      {| heap := demo_heap; trace := [] |}
    = Returned [tt; tt; tt; tt] w' /\
    cell (heap w') 12 0 = Some 165 /\
    sequential_dot (fun i => i) (fun i => 10 - i) 10 = 165.
Proof. eexists. split; [vm_compute; reflexivity | split; reflexivity]. Qed.

(** Three threads on ten elements: ranges [0,4), [4,8), [8,10). *)
Example uneven_ranges :
  map (fun t => (begin_index t 3 10, end_index t 3 10)) [0; 1; 2] = [(0, 4); (4, 8); (8, 10)].
Proof. reflexivity. Qed.

(** Eight threads on three elements: threads 3, ..., 7 have empty ranges. *)
Example more_threads_than_elements :
  map (fun t => range_size t 8 3) [0; 1; 2; 3; 4; 5; 6; 7] = [1; 1; 1; 0; 0; 0; 0; 0].
Proof. reflexivity. Qed.
